(** * multidl-ytdlp: the batch orchestrator of [main.go]

    A shallow embedding of [main.go] (ledger load and append, pending
    tracker, per-item goroutine, result handler, input deduplication,
    run lifecycle) and the properties of the specification checked on it.
    Part III has further properties of the same code, and of the
    functions of the sibling variants [unnamed/part_000] and
    [Archive/ytmp3_v0.3.go] that differ from it.

    Go strings are byte strings: they are [string] here (a list of 8-bit
    [ascii]).  [map[string]struct{}] is a finite set, [gset string].  The
    goroutines are interleaved by an explicit scheduler trace; every
    critical section guarded by a mutex is one atomic step. *)

From Stdlib Require Import NArith ZArith Ascii String List Lia.
From stdpp Require Import base gmap sets list strings.

#[local] Set Warnings "-clear-no-such-hyp".

(* ===================================================================== *)
(** * Part I: definitions *)
(* ===================================================================== *)

(** ** Go library functions used by [main.go] *)

Module GoStrings.

Definition byte (n : nat) : ascii := ascii_of_nat n.

Fixpoint of_bytes (l : list nat) : string :=
  match l with
  | [] => EmptyString
  | n :: l' => String (byte n) (of_bytes l')
  end.

(** [strings.asciiSpace]: tab, newline, vertical tab, form feed,
    carriage return, space. *)
Definition asciiSpace (c : ascii) : bool :=
  let n := nat_of_ascii c in
  ((9 <=? n) && (n <=? 13)) || (n =? 32).

(** The UTF-8 encodings of the non-ASCII runes of [unicode.IsSpace]:
    U+0085, U+00A0, U+1680, U+2000..U+200A, U+2028, U+2029, U+202F,
    U+205F, U+3000. *)
Definition unicodeSpaces : list (list nat) :=
  [ [194; 133]; [194; 160]; [225; 154; 128];
    [226; 128; 128]; [226; 128; 129]; [226; 128; 130]; [226; 128; 131];
    [226; 128; 132]; [226; 128; 133]; [226; 128; 134]; [226; 128; 135];
    [226; 128; 136]; [226; 128; 137]; [226; 128; 138];
    [226; 128; 168]; [226; 128; 169]; [226; 128; 175];
    [226; 129; 159]; [227; 128; 128] ].

Fixpoint hasPrefix (p s : string) : bool :=
  match p, s with
  | EmptyString, _ => true
  | String a p', String b s' => if decide (a = b) then hasPrefix p' s' else false
  | String _ _, EmptyString => false
  end.

(** Width in bytes of the white-space rune that starts [s] when its
    bytes are matched against [pats]; 0 when [s] starts with none. *)
Fixpoint spaceWidth (pats : list string) (s : string) : nat :=
  match s with
  | EmptyString => 0
  | String c _ =>
      if asciiSpace c then 1
      else match pats with
           | [] => 0
           | p :: pats' =>
               if hasPrefix p s then String.length p else spaceWidth pats' s
           end
  end.

(** Strips the leading white-space runes; [skip] counts the bytes of
    the current rune still to drop. *)
Fixpoint trimLeading (pats : list string) (skip : nat) (s : string) : string :=
  match s with
  | EmptyString => EmptyString
  | String _ s' =>
      match skip with
      | S k => trimLeading pats k s'
      | O =>
          match spaceWidth pats s with
          | O => s
          | S k => trimLeading pats k s'
          end
      end
  end.

Definition TrimLeft (s : string) : string :=
  trimLeading (map of_bytes unicodeSpaces) 0 s.

(** The last rune is found by its bytes read backwards. *)
Definition TrimRight (s : string) : string :=
  String.rev
    (trimLeading (map (λ l, of_bytes (rev l)) unicodeSpaces) 0 (String.rev s)).

(** [strings.TrimSpace]: all leading and trailing white space removed,
    as defined by Unicode. *)
Definition TrimSpace (s : string) : string := TrimRight (TrimLeft s).

(** [strings.Contains]: [substr] occurs within [s]. *)
Fixpoint Contains (s substr : string) : bool :=
  hasPrefix substr s ||
  match s with
  | EmptyString => false
  | String _ s' => Contains s' substr
  end.

End GoStrings.

Module Bufio.

(** [bufio.MaxScanTokenSize]. *)
Definition MaxScanTokenSize : N := 65536.

Definition newline : ascii := GoStrings.byte 10.
Definition cr : ascii := GoStrings.byte 13.

(** The raw lines of [data]: cut at every newline byte; the last
    piece is a line when it is not empty.  [cur] is the line read so
    far, in reverse. *)
Fixpoint rawLines (cur : string) (data : string) : list string :=
  match data with
  | EmptyString =>
      match cur with
      | EmptyString => []
      | _ => [String.rev cur]
      end
  | String c rest =>
      if decide (c = newline) then String.rev cur :: rawLines EmptyString rest
      else rawLines (String c cur) rest
  end.

(** [dropCR]: one trailing carriage return is dropped. *)
Definition dropCR (l : string) : string :=
  match String.rev l with
  | String c r => if decide (c = cr) then String.rev r else l
  | EmptyString => l
  end.

Inductive scanError := ErrTooLong | ErrRead.

(** What the reader under the scanner delivers: the whole file, or
    its first [n] bytes and then an error. *)
Inductive readOutcome := ReadAll | ReadFails (n : nat).

(** The tokens [Scan] yields one after the other with the [ScanLines]
    split function, and the value of [Err] once [Scan] returns false.
    A line that does not fit the buffer stops the scan. *)
Fixpoint tokens (raw : list string) (final : option scanError)
  : list string * option scanError :=
  match raw with
  | [] => ([], final)
  | l :: raw' =>
      if (MaxScanTokenSize <=? N.of_nat (String.length l))%N
      then ([], Some ErrTooLong)
      else let '(ts, e) := tokens raw' final in (dropCR l :: ts, e)
  end.

Fixpoint takeBytes (n : nat) (s : string) : string :=
  match n, s with
  | S k, String c s' => String c (takeBytes k s')
  | _, _ => EmptyString
  end.

(** The lines of a file that is read to its end. *)
Definition lines (data : string) : list string :=
  dropCR <$> rawLines EmptyString data.

(** The line fits the scanner's buffer. *)
Definition fits (l : string) : Prop :=
  (N.of_nat (String.length l) < MaxScanTokenSize)%N.

Definition scan (rd : readOutcome) (data : string)
  : list string * option scanError :=
  match rd with
  | ReadAll => tokens (rawLines EmptyString data) None
  | ReadFails n => tokens (rawLines EmptyString (takeBytes n data)) (Some ErrRead)
  end.

End Bufio.

(** ** The backing store *)

(** The archive file next to the executable: [None] when it does not
    exist, otherwise its bytes.  Every call the program makes on it is
    logged. *)
Inductive fsEvent :=
  | FsOpenRead (ok : bool)      (* os.OpenFile(path, O_RDONLY|O_CREATE) *)
  | FsScan                      (* the scanner reads the file *)
  | FsOpenAppend (ok : bool)    (* os.OpenFile(path, O_WRONLY|O_APPEND|O_CREATE) *)
  | FsWrite (data : string).    (* bytes that reached the file *)

Record disk := Disk { store : option string; fslog : list fsEvent }.

Definition createIfAbsent (d : option string) : string :=
  match d with
  | Some bytes => bytes
  | None => EmptyString
  end.

(** ** Errors *)

(** A Go error is kept by its message.  [main.go] tests errors against
    nil and, for [result.Error], looks for a substring of the message;
    where [fmt.Errorf] wraps a cause of the operating system that
    nothing reads, the cause is left out. *)
Definition error := string.

(** ** [initArchive] *)

(** The body of the scan loop. *)
Definition initArchive_line (m : gset string) (text : string) : gset string :=
  let line := GoStrings.TrimSpace text in
  if decide (line = EmptyString) then m else {[ line ]} ∪ m.

(** [open_ok]: whether [os.OpenFile] succeeds; [rd]: what reading gives.
    Returns the new [processedArchive.m], the disk and the error. *)
Definition initArchive (open_ok : bool) (rd : Bufio.readOutcome) (d : disk)
  : gset string * disk * option error :=
  if negb open_ok then
    (∅, Disk (store d) (fslog d ++ [FsOpenRead false]),
     Some "failed to open archive")
  else
    let bytes := createIfAbsent (store d) in
    let d' := Disk (Some bytes) (fslog d ++ [FsOpenRead true; FsScan]) in
    let '(lines, serr) := Bufio.scan rd bytes in
    let m := fold_left initArchive_line lines ∅ in
    match serr with
    | Some _ => (m, d', Some "archive read error")
    | None => (m, d', None)
    end.

(** ** [deduplicateArgs] *)

Fixpoint deduplicateArgs_loop (seen : gset string) (unique : list string)
    (args : list string) : list string :=
  match args with
  | [] => unique
  | arg :: rest =>
      if decide (arg ∈ seen) then deduplicateArgs_loop seen unique rest
      else deduplicateArgs_loop ({[ arg ]} ∪ seen) (unique ++ [arg]) rest
  end.

Definition deduplicateArgs (args : list string) : list string :=
  deduplicateArgs_loop ∅ [] args.

(** The specification's wording of the same: an argument is kept when
    it does not occur earlier in the sequence. *)
Fixpoint firstOccurrences (earlier : list string) (args : list string) : list string :=
  match args with
  | [] => []
  | arg :: rest =>
      if decide (arg ∈ earlier) then firstOccurrences (earlier ++ [arg]) rest
      else arg :: firstOccurrences (earlier ++ [arg]) rest
  end.

(** ** [SafeSet] operations: the pending tracker *)

(** A nil map reads as the empty set; [markPending] allocates it. *)
Definition markPending (identifier : string) (pending : gset string)
  : gset string * bool :=
  if decide (identifier ∈ pending) then (pending, false)
  else ({[ identifier ]} ∪ pending, true).

Definition unmarkPending (identifier : string) (pending : gset string)
  : gset string :=
  pending ∖ {[ identifier ]}.

(** ** [appendToArchive] *)

(** What the file system answers to one append. *)
Inductive appendIO :=
  | AppendOpenFails
  | AppendWriteFails (written : nat)   (* bytes that got out before the error *)
  | AppendOk.

Definition Fprintln_bytes (identifier : string) : string :=
  identifier +:+ String Bufio.newline EmptyString.

(** Returns the new [processedArchive.m], the disk and the error. *)
Definition appendToArchive (io : appendIO) (identifier : string)
    (m : gset string) (d : disk) : gset string * disk * option error :=
  match io with
  | AppendOpenFails =>
      (m, Disk (store d) (fslog d ++ [FsOpenAppend false]),
       Some "archive open failed")
  | AppendWriteFails n =>
      let part := Bufio.takeBytes n (Fprintln_bytes identifier) in
      (m, Disk (Some (createIfAbsent (store d) +:+ part))
               (fslog d ++ [FsOpenAppend true; FsWrite part]),
       Some "archive write failed")
  | AppendOk =>
      let line := Fprintln_bytes identifier in
      ({[ identifier ]} ∪ m,
       Disk (Some (createIfAbsent (store d) +:+ line))
            (fslog d ++ [FsOpenAppend true; FsWrite line]),
       None)
  end.

(** ** Results and counters *)

(** [StartTime] and [Duration] only reach the log line. *)
Record processingResult := ProcessingResult {
  Identifier : string;
  ItemNumber : nat;
  Error : option error;
  ArchiveErr : option error
}.

(** [atomic.Uint64.Add]. *)
Definition Uint64_Add (x delta : N) : N := ((x + delta) mod 2 ^ 64)%N.

Record counters := Counters {
  processedCount : N;
  skippedCount : N;
  errorCount : N
}.

(** The verdict of the line [handleProcessingResult] logs. *)
Inductive verdict := ArchiveError | Skipped | FailedWith | Success.

Record logLine := LogLine {
  logItem : nat;
  logIdentifier : string;
  logVerdict : verdict
}.

(** Returns the line logged and the counters after the [Add]. *)
Definition handleProcessingResult (result : processingResult) (c : counters)
  : logLine * counters :=
  let line := LogLine (ItemNumber result) (Identifier result) in
  match ArchiveErr result with
  | Some _ =>
      (line ArchiveError,
       Counters (processedCount c) (skippedCount c) (Uint64_Add (errorCount c) 1))
  | None =>
      match Error result with
      | Some e =>
          if GoStrings.Contains e "skipped"
          then (line Skipped,
                Counters (processedCount c) (Uint64_Add (skippedCount c) 1)
                  (errorCount c))
          else (line FailedWith,
                Counters (processedCount c) (skippedCount c)
                  (Uint64_Add (errorCount c) 1))
      | None =>
          (line Success,
           Counters (Uint64_Add (processedCount c) 1) (skippedCount c)
             (errorCount c))
      end
  end.

(** What [printSummary] prints (the elapsed time apart). *)
Record summaryReport := SummaryReport {
  sumInterrupted : bool;
  sumSubmitted : nat;
  sumProcessed : N;
  sumSkipped : N;
  sumErrors : N
}.

Definition printSummary (interrupted : bool) (totalItems : nat) (c : counters)
  : summaryReport :=
  SummaryReport interrupted totalItems
    (processedCount c) (skippedCount c) (errorCount c).

(** ** [processVideo] as a goroutine *)

(** Where a [processVideo] goroutine stands.  The three deferred calls
    run last in, first out: [unmarkPending], the send of the result,
    [wg.Done]. *)
Inductive pc :=
  | PcStart      (* launched, before [markPending] *)
  | PcCheck      (* admitted; before the look-up in [processedArchive] *)
  | PcRun        (* inside [cmd.Run] *)
  | PcAppend     (* yt-dlp succeeded; before [appendToArchive] *)
  | PcUnmark     (* returning; deferred [unmarkPending] next *)
  | PcSend       (* deferred [results <- result] next *)
  | PcWgDone     (* deferred [wg.Done] next *)
  | PcExit.      (* goroutine over *)

Record goroutine := Goroutine { g_pc : pc; g_result : processingResult }.

(** What the outside world answers when a step asks it: the error of
    [cmd.Run] ([None] for a zero exit) and the fate of one append. *)
Record external := External { cmdErr : option string; appendFate : appendIO }.

Inductive signal := SIGINT | SIGTERM.

Inductive mainPc :=
  | MainCollect              (* in [for result := range results] *)
  | MainExited (code : Z).

(** The package-level variables, the locals of [main] that outlive the
    launch, the goroutines, the disk and the processes started. *)
Record state := State {
  pending : gset string;
  processedArchive : gset string;
  archive : disk;
  spawned : list string;            (* identifiers [cmd.Run] was called for *)
  goroutines : list goroutine;
  results : list processingResult;  (* the channel buffer, oldest first *)
  resultsClosed : bool;
  wg : nat;
  count : counters;
  logged : list logLine;            (* lines of [handleProcessingResult] *)
  totalItems : nat;                 (* also the capacity of [results] *)
  shutdownSignal : list signal;     (* capacity 1 *)
  ctxCancelled : bool;
  interrupted : bool;
  summary : option summaryReport;
  mainAt : mainPc
}.

Definition set_goroutine (i : nat) (g : goroutine) (s : state) : state :=
  State (pending s) (processedArchive s) (archive s) (spawned s)
    (<[ i := g ]> (goroutines s)) (results s) (resultsClosed s) (wg s)
    (count s) (logged s) (totalItems s) (shutdownSignal s) (ctxCancelled s)
    (interrupted s) (summary s) (mainAt s).

Definition set_pending (p : gset string) (s : state) : state :=
  State p (processedArchive s) (archive s) (spawned s)
    (goroutines s) (results s) (resultsClosed s) (wg s)
    (count s) (logged s) (totalItems s) (shutdownSignal s) (ctxCancelled s)
    (interrupted s) (summary s) (mainAt s).

Definition set_ledger (m : gset string) (d : disk) (s : state) : state :=
  State (pending s) m d (spawned s)
    (goroutines s) (results s) (resultsClosed s) (wg s)
    (count s) (logged s) (totalItems s) (shutdownSignal s) (ctxCancelled s)
    (interrupted s) (summary s) (mainAt s).

Definition set_spawned (l : list string) (s : state) : state :=
  State (pending s) (processedArchive s) (archive s) l
    (goroutines s) (results s) (resultsClosed s) (wg s)
    (count s) (logged s) (totalItems s) (shutdownSignal s) (ctxCancelled s)
    (interrupted s) (summary s) (mainAt s).

Definition set_results (r : list processingResult) (s : state) : state :=
  State (pending s) (processedArchive s) (archive s) (spawned s)
    (goroutines s) r (resultsClosed s) (wg s)
    (count s) (logged s) (totalItems s) (shutdownSignal s) (ctxCancelled s)
    (interrupted s) (summary s) (mainAt s).

Definition set_wg (n : nat) (s : state) : state :=
  State (pending s) (processedArchive s) (archive s) (spawned s)
    (goroutines s) (results s) (resultsClosed s) n
    (count s) (logged s) (totalItems s) (shutdownSignal s) (ctxCancelled s)
    (interrupted s) (summary s) (mainAt s).

Definition set_handled (h : logLine * counters) (s : state) : state :=
  State (pending s) (processedArchive s) (archive s) (spawned s)
    (goroutines s) (results s) (resultsClosed s) (wg s)
    h.2 (logged s ++ [h.1]) (totalItems s) (shutdownSignal s) (ctxCancelled s)
    (interrupted s) (summary s) (mainAt s).

Definition with_error (e : error) (r : processingResult) : processingResult :=
  ProcessingResult (Identifier r) (ItemNumber r) (Some e) (ArchiveErr r).

Definition with_archiveErr (e : option error) (r : processingResult)
  : processingResult :=
  ProcessingResult (Identifier r) (ItemNumber r) (Error r) e.

(** One atomic step of goroutine [i], which stands at [g].
    [PcStart]: the banner and [markPending] (lines 135-146).
    [PcCheck]: the look-up under the lock and, when the identifier is
    not archived, the call of [cmd.Run] (lines 148-175), which returns
    at once when the context is already cancelled.
    [PcRun]: [cmd.Run] returns (lines 175-178).
    [PcAppend]: [appendToArchive] (lines 180-182).
    [PcUnmark], [PcSend], [PcWgDone]: the deferred calls. *)
Definition processVideo_step (i : nat) (g : goroutine) (x : external)
    (s : state) : option state :=
  let r := g_result g in
  let identifier := Identifier r in
  match g_pc g with
  | PcStart =>
      let '(p, ok) := markPending identifier (pending s) in
      if ok then Some (set_goroutine i (Goroutine PcCheck r) (set_pending p s))
      else Some (set_goroutine i
                   (Goroutine PcSend (with_error "duplicate in progress" r))
                   (set_pending p s))
  | PcCheck =>
      if decide (identifier ∈ processedArchive s) then
        Some (set_goroutine i
                (Goroutine PcUnmark (with_error "skipped (archived)" r)) s)
      else if ctxCancelled s then
        Some (set_goroutine i
                (Goroutine PcUnmark
                   (with_error "yt-dlp error: context canceled" r)) s)
      else
        Some (set_goroutine i (Goroutine PcRun r)
                (set_spawned (spawned s ++ [identifier]) s))
  | PcRun =>
      match cmdErr x with
      | Some msg =>
          Some (set_goroutine i
                  (Goroutine PcUnmark (with_error ("yt-dlp error: " +:+ msg) r)) s)
      | None => Some (set_goroutine i (Goroutine PcAppend r) s)
      end
  | PcAppend =>
      let '(m, d, err) :=
        appendToArchive (appendFate x) identifier (processedArchive s) (archive s) in
      Some (set_goroutine i (Goroutine PcUnmark (with_archiveErr err r))
              (set_ledger m d s))
  | PcUnmark =>
      Some (set_goroutine i (Goroutine PcSend r)
              (set_pending (unmarkPending identifier (pending s)) s))
  | PcSend =>
      (* a send blocks on a full buffer and panics on a closed channel *)
      if resultsClosed s then None
      else if length (results s) <? totalItems s then
        Some (set_goroutine i (Goroutine PcWgDone r)
                (set_results (results s ++ [r]) s))
      else None
  | PcWgDone =>
      match wg s with
      | S n => Some (set_goroutine i (Goroutine PcExit r) (set_wg n s))
      | O => None   (* negative WaitGroup counter: panic *)
      end
  | PcExit => None
  end.

(** ** The run *)

Inductive event :=
  | EvJob (i : nat) (x : external)  (* goroutine [i] takes its next step *)
  | EvWaiter                        (* [wg.Wait] returns, [close(results)] *)
  | EvRecv                          (* [main] receives and handles a result *)
  | EvReturn                        (* the range loop ends, [main] returns *)
  | EvSignal (sig : signal).        (* the operator interrupts *)

Definition step (e : event) (s : state) : option state :=
  match mainAt s with
  | MainExited _ => None
  | MainCollect =>
      match e with
      | EvJob i x =>
          match goroutines s !! i with
          | Some g => processVideo_step i g x s
          | None => None
          end
      | EvWaiter =>
          if resultsClosed s then None
          else match wg s with
               | O =>
                   Some (State (pending s) (processedArchive s) (archive s)
                           (spawned s) (goroutines s) (results s) true (wg s)
                           (count s) (logged s) (totalItems s) (shutdownSignal s)
                           (ctxCancelled s) (interrupted s) (summary s)
                           (mainAt s))
               | S _ => None
               end
      | EvRecv =>
          match results s with
          | result :: rest =>
              Some (set_handled (handleProcessingResult result (count s))
                      (set_results rest s))
          | [] => None
          end
      | EvReturn =>
          match results s with
          | [] =>
              if resultsClosed s then
                (* deferred: printSummary(interrupted), then cancel() *)
                Some (State (pending s) (processedArchive s) (archive s)
                        (spawned s) (goroutines s) (results s)
                        (resultsClosed s) (wg s) (count s) (logged s) (totalItems s)
                        (shutdownSignal s) true (interrupted s)
                        (Some (printSummary (interrupted s) (totalItems s)
                                 (count s)))
                        (MainExited 0))
              else None
          | _ :: _ => None
          end
      | EvSignal sig =>
          (* signal.Notify delivers without blocking: dropped when the
             buffer is full; nothing receives from the channel *)
          Some (State (pending s) (processedArchive s) (archive s)
                  (spawned s) (goroutines s) (results s) (resultsClosed s)
                  (wg s) (count s) (logged s) (totalItems s)
                  (match shutdownSignal s with
                   | [] => [sig]
                   | l => l
                   end)
                  (ctxCancelled s) (interrupted s) (summary s) (mainAt s))
      end
  end.

Fixpoint exec (tr : list event) (s : state) : option state :=
  match tr with
  | [] => Some s
  | e :: tr' =>
      match step e s with
      | Some s' => exec tr' s'
      | None => None
      end
  end.

(** The state [main] is in once every goroutine is launched. *)
Definition launch (m : gset string) (d : disk) (args : list string) : state :=
  State ∅ m d []
    (imap (λ i identifier,
             Goroutine PcStart (ProcessingResult identifier (i + 1) None None))
          args)
    [] false (length args) (Counters 0 0 0) [] (length args) [] false false
    None MainCollect.

Inductive abortReason := FatalExecutable | FatalArchive | UsageError.

Inductive startup :=
  | Aborted (code : Z) (why : abortReason) (d : disk)
  | Launched (s : state).

(** [main] up to the launch.  [exe_ok]: whether [os.Executable]
    succeeds; [log.Fatalf] and [os.Exit(1)] both end with status 1. *)
Definition main (exe_ok open_ok : bool) (rd : Bufio.readOutcome) (d : disk)
    (osArgs : list string) : startup :=
  if negb exe_ok then Aborted 1 FatalExecutable d
  else
    let '(m, d', err) := initArchive open_ok rd d in
    match err with
    | Some _ => Aborted 1 FatalArchive d'
    | None =>
        let args := deduplicateArgs osArgs in
        if length args =? 0 then Aborted 1 UsageError d'
        else Launched (launch m d' args)
    end.

(** ** Outcomes *)

Inductive outcome :=
  | SkippedDuplicate | SkippedAlreadyDone | Succeeded
  | SucceededWithLedgerError | Failed.

(** The outcome a result stands for, by the path that produced it. *)
Definition outcome_of (r : processingResult) : outcome :=
  match ArchiveErr r, Error r with
  | Some _, _ => SucceededWithLedgerError
  | None, None => Succeeded
  | None, Some e =>
      if decide (e = "duplicate in progress") then SkippedDuplicate
      else if decide (e = "skipped (archived)") then SkippedAlreadyDone
      else Failed
  end.

(** ** Bookkeeping over the goroutines *)

Definition ident (g : goroutine) : string := Identifier (g_result g).
Definition item (g : goroutine) : nat := ItemNumber (g_result g).

(** The goroutine is between its successful [markPending] and its
    deferred [unmarkPending]. *)
Definition holds (g : goroutine) : bool :=
  match g_pc g with
  | PcCheck | PcRun | PcAppend | PcUnmark => true
  | _ => false
  end.

(** The result has not been sent yet. *)
Definition unsent (g : goroutine) : bool :=
  match g_pc g with
  | PcWgDone | PcExit => false
  | _ => true
  end.

(** [wg.Done] has not been called yet. *)
Definition alive (g : goroutine) : bool :=
  match g_pc g with
  | PcExit => false
  | _ => true
  end.

Fixpoint tally (f : goroutine → bool) (l : list goroutine) : nat :=
  match l with
  | [] => 0
  | g :: l' => (if f g then 1 else 0) + tally f l'
  end.

Fixpoint itemsOf (f : goroutine → bool) (l : list goroutine) : list nat :=
  match l with
  | [] => []
  | g :: l' => if f g then item g :: itemsOf f l' else itemsOf f l'
  end.

Fixpoint identsOf (f : goroutine → bool) (l : list goroutine) : list string :=
  match l with
  | [] => []
  | g :: l' => if f g then ident g :: identsOf f l' else identsOf f l'
  end.

Definition counted (c : counters) : N :=
  (processedCount c + skippedCount c + errorCount c)%N.

(** Steps a goroutine at [p] still has to take, a send counting twice. *)
Definition rank (p : pc) : nat :=
  match p with
  | PcStart => 8 | PcCheck => 7 | PcRun => 6 | PcAppend => 5
  | PcUnmark => 4 | PcSend => 3 | PcWgDone => 1 | PcExit => 0
  end.

Fixpoint ranks (l : list goroutine) : nat :=
  match l with
  | [] => 0
  | g :: l' => rank (g_pc g) + ranks l'
  end.

(** What is left of the run, in steps other than signals. *)
Definition remaining (s : state) : nat :=
  ranks (goroutines s) + length (results s)
  + (if resultsClosed s then 0 else 1)
  + (match mainAt s with MainCollect => 1 | MainExited _ => 0 end).

Definition isSignal (e : event) : bool :=
  match e with
  | EvSignal _ => true
  | _ => false
  end.

(** The trace asks the outside world what [ext] answers. *)
Definition answers (ext : nat → external) (tr : list event) : Prop :=
  Forall (λ e, match e with EvJob i x => x = ext i | _ => True end) tr.

(** A result that did not come out of an error path yet. *)
Definition fresh (r : processingResult) : Prop :=
  Error r = None ∧ ArchiveErr r = None.

(** Where the result of a goroutine can stand: untouched up to the
    append, and never the rejection of [markPending] at the release. *)
Definition result_ok (g : goroutine) : Prop :=
  match g_pc g with
  | PcStart | PcCheck | PcRun | PcAppend => fresh (g_result g)
  | PcUnmark => outcome_of (g_result g) ≠ SkippedDuplicate
  | _ => True
  end.

(** Exactly one of the three counters went up by one. *)
Definition increments_one (c c' : counters) : Prop :=
  (processedCount c' = (processedCount c + 1)%N
   ∧ skippedCount c' = skippedCount c ∧ errorCount c' = errorCount c)
  ∨ (processedCount c' = processedCount c
     ∧ skippedCount c' = (skippedCount c + 1)%N ∧ errorCount c' = errorCount c)
  ∨ (processedCount c' = processedCount c
     ∧ skippedCount c' = skippedCount c ∧ errorCount c' = (errorCount c + 1)%N).

(** The invariant of a run launched on [args]. *)
Record run_inv (args : list string) (s : state) : Prop := RunInv {
  inv_ids : ident <$> goroutines s = args;
  inv_items : item <$> goroutines s = seq 1 (length args);
  inv_total : totalItems s = length args;
  inv_wg : wg s = tally alive (goroutines s);
  inv_closed : resultsClosed s = true → wg s = 0;
  inv_once :
    (logItem <$> logged s) ++ (ItemNumber <$> results s)
      ++ itemsOf unsent (goroutines s) ≡ₚ seq 1 (length args);
  inv_counted : counted (count s) = N.of_nat (length (logged s));
  inv_collect :
    mainAt s = MainCollect → ctxCancelled s = false ∧ summary s = None;
  inv_exited :
    ∀ code, mainAt s = MainExited code →
      code = 0%Z ∧ resultsClosed s = true ∧ results s = []
      ∧ summary s = Some (printSummary false (totalItems s) (count s));
  inv_interrupted : interrupted s = false;
  inv_pending : ∀ x, x ∈ pending s ↔ x ∈ identsOf holds (goroutines s);
  inv_owner : NoDup (identsOf holds (goroutines s));
  inv_results : Forall result_ok (goroutines s)
}.

(** The goroutine called [cmd.Run]. *)
Definition started (g : goroutine) : bool :=
  match g_pc g with
  | PcStart | PcCheck => false
  | PcRun | PcAppend => true
  | _ =>
      match outcome_of (g_result g) with
      | Succeeded | SucceededWithLedgerError | Failed => true
      | _ => false
      end
  end.

(** The goroutine came back from a successful [appendToArchive]. *)
Definition archived (g : goroutine) : bool :=
  match g_pc g with
  | PcUnmark | PcSend | PcWgDone | PcExit =>
      match outcome_of (g_result g) with
      | Succeeded => true
      | _ => false
      end
  | _ => false
  end.

(** What one goroutine satisfies on top when the identifiers launched
    are pairwise distinct, as [deduplicateArgs] leaves them; [m0] is
    the ledger as loaded and [m] the ledger now. *)
Definition goroutine_ok (m0 m : gset string) (g : goroutine) : Prop :=
  match g_pc g with
  | PcStart | PcCheck => fresh (g_result g)
  | PcRun | PcAppend => fresh (g_result g) ∧ ident g ∉ m
  | _ => True
  end
  ∧ outcome_of (g_result g) ≠ SkippedDuplicate
  ∧ (outcome_of (g_result g) = SkippedAlreadyDone → ident g ∈ m0)
  ∧ (started g = true → ident g ∉ m0).

Record dedup_inv (m0 : gset string) (s : state) : Prop := DedupInv {
  dinv_goroutines :
    Forall (goroutine_ok m0 (processedArchive s)) (goroutines s);
  dinv_sent :
    Forall (λ r, outcome_of r ≠ SkippedDuplicate) (results s);
  dinv_spawned : ∀ x, x ∈ spawned s ↔ x ∈ identsOf started (goroutines s);
  dinv_spawned_once : NoDup (spawned s);
  dinv_ledger :
    ∀ x, x ∈ processedArchive s ↔ x ∈ m0 ∨ x ∈ identsOf archived (goroutines s)
}.

(** ** Sample runs *)

(** yt-dlp exits with status 0 and the append goes through. *)
Definition sample_ok : external := External None AppendOk.

(** yt-dlp exits with status 1. *)
Definition sample_failing : external :=
  External (Some "exit status 1") AppendOk.

(** No archive file yet. *)
Definition sample_disk : disk := Disk None [].

(** The disk once [initArchive] has created and read the empty file. *)
Definition sample_loaded : disk := Disk (Some "") [FsOpenRead true; FsScan].

(** The first goroutine runs from its launch to its end in [n] steps
    (7 when yt-dlp succeeds, 6 when it fails), then the waiter closes
    the channel and [main] receives and returns. *)
Definition sample_schedule (n : nat) (x : external) : list event :=
  replicate n (EvJob 0 x) ++ [EvWaiter; EvRecv; EvReturn].

(** The same with an interrupt while yt-dlp runs. *)
Definition sample_interrupted : list event :=
  [EvJob 0 sample_ok; EvJob 0 sample_ok; EvSignal SIGINT]
  ++ replicate 5 (EvJob 0 sample_ok) ++ [EvWaiter; EvRecv; EvReturn].

(** Two goroutines for one identifier: the first is admitted and
    calls yt-dlp, then the second is rejected by [markPending]. *)
Definition sample_rejection : list event :=
  [EvJob 0 sample_ok; EvJob 0 sample_ok; EvJob 1 sample_ok].

(** What a state shows of a run: the outcome of every goroutine, the
    processes started, the counters, the summary and where [main] is. *)
Definition observe (s : state)
  : list outcome * list string * counters * option summaryReport * mainPc :=
  (outcome_of ∘ g_result <$> goroutines s, spawned s, count s, summary s,
   mainAt s).

(** ** Bytes of a string *)

(** The byte [c] occurs in [s]. *)
Fixpoint hasByte (c : ascii) (s : string) : bool :=
  match s with
  | EmptyString => false
  | String a s' => if decide (a = c) then true else hasByte c s'
  end.

(** No white-space rune at either end, as [strings.TrimSpace] sees them. *)
Definition noSpaceAtEnds (s : string) : Prop :=
  GoStrings.spaceWidth (map GoStrings.of_bytes GoStrings.unicodeSpaces) s = 0
  ∧ GoStrings.spaceWidth
      (map (λ l, GoStrings.of_bytes (rev l)) GoStrings.unicodeSpaces)
      (String.rev s) = 0.

(** The store holds whole lines only: it is empty or ends in a newline. *)
Definition wholeLines (bytes : string) : Prop :=
  bytes = EmptyString
  ∨ ∃ a, bytes = a +:+ String Bufio.newline EmptyString.

(** An identifier that reads back from its line as itself: not empty,
    no white space at either end, no newline inside, short enough for
    the scanner. *)
Definition storable (identifier : string) : Prop :=
  identifier ≠ EmptyString
  ∧ GoStrings.TrimSpace identifier = identifier
  ∧ hasByte Bufio.newline identifier = false
  ∧ Bufio.fits identifier.

(** The verdict [handleProcessingResult] reaches on a result. *)
Definition verdictOf (result : processingResult) : verdict :=
  match ArchiveErr result with
  | Some _ => ArchiveError
  | None =>
      match Error result with
      | Some e => if GoStrings.Contains e "skipped" then Skipped else FailedWith
      | None => Success
      end
  end.

(** The goroutines whose result has been sent. *)
Definition sent (g : goroutine) : bool := negb (unsent g).

(** The verdicts the results of the goroutines selected by [f] get. *)
Fixpoint verdictsOf (f : goroutine → bool) (l : list goroutine)
  : list verdict :=
  match l with
  | [] => []
  | g :: l' =>
      if f g then verdictOf (g_result g) :: verdictsOf f l'
      else verdictsOf f l'
  end.

#[global] Instance verdict_eq_dec : EqDecision verdict.
Proof. solve_decision. Defined.

(** The results with verdict [v] among [l]. *)
Definition withVerdict (v : verdict) (l : list verdict) : nat :=
  length (filter (λ w, w = v) l).

(** The counters are the numbers of lines logged, by verdict. *)
Definition countsLogged (c : counters) (logged : list logLine) : Prop :=
  let vs := logVerdict <$> logged in
  processedCount c = N.of_nat (withVerdict Success vs)
  ∧ skippedCount c = N.of_nat (withVerdict Skipped vs)
  ∧ errorCount c
    = N.of_nat (withVerdict ArchiveError vs + withVerdict FailedWith vs).

(** No append of the trace has a write that fails. *)
Definition writesGoThrough (tr : list event) : Prop :=
  Forall (λ e, match e with
               | EvJob _ x => ∀ n, appendFate x ≠ AppendWriteFails n
               | _ => True
               end) tr.

(** ** The variant with thumbnails: [sanitizeFilename], [appendToArchive] *)

Module Part000.

(** The [strings.NewReplacer] of [sanitizeFilename]: every pair has one
    byte on each side, so the replacer maps byte to byte.  Slash,
    backslash, colon, star, question mark, less-than, greater-than and
    bar become an underscore, the double quote a single quote. *)
Definition replaceByte (c : ascii) : ascii :=
  let n := nat_of_ascii c in
  if (n =? 47) || (n =? 92) || (n =? 58) || (n =? 42) || (n =? 63)
     || (n =? 60) || (n =? 62) || (n =? 124)
  then GoStrings.byte 95
  else if n =? 34 then GoStrings.byte 39
  else c.

Fixpoint Replace (s : string) : string :=
  match s with
  | EmptyString => EmptyString
  | String c s' => String (replaceByte c) (Replace s')
  end.

(** The cutset of [strings.Trim(sanitized, ". ")]: dot and space. *)
Definition cutset (c : ascii) : bool :=
  let n := nat_of_ascii c in (n =? 46) || (n =? 32).

Fixpoint trimLeftASCII (s : string) : string :=
  match s with
  | EmptyString => EmptyString
  | String c s' => if cutset c then trimLeftASCII s' else s
  end.

Definition trimRightASCII (s : string) : string :=
  String.rev (trimLeftASCII (String.rev s)).

(** [strings.Trim] on an ASCII cutset. *)
Definition Trim (s : string) : string := trimLeftASCII (trimRightASCII s).

Definition sanitizeFilename (name : string) : string := Trim (Replace name).

(** The byte is one the replacer rewrites. *)
Definition forbidden (c : ascii) : bool :=
  let n := nat_of_ascii c in
  (n =? 47) || (n =? 92) || (n =? 58) || (n =? 42) || (n =? 63)
  || (n =? 34) || (n =? 60) || (n =? 62) || (n =? 124).

Fixpoint anyByte (f : ascii → bool) (s : string) : bool :=
  match s with
  | EmptyString => false
  | String c s' => f c || anyByte f s'
  end.

(** [appendToArchive] of this variant: the membership is checked first,
    under the same lock.  The messages are kept without the path, the
    identifier and the wrapped cause that [fmt.Errorf] puts in. *)
Definition appendToArchive (io : appendIO) (identifier : string)
    (m : gset string) (d : disk) : gset string * disk * option error :=
  if decide (identifier ∈ m) then (m, d, None)
  else
    match io with
    | AppendOpenFails =>
        (m, Disk (store d) (fslog d ++ [FsOpenAppend false]),
         Some "failed to open archive file for appending")
    | AppendWriteFails n =>
        let part := Bufio.takeBytes n (Fprintln_bytes identifier) in
        (m, Disk (Some (createIfAbsent (store d) +:+ part))
                 (fslog d ++ [FsOpenAppend true; FsWrite part]),
         Some "failed to write identifier to archive file")
    | AppendOk =>
        let line := Fprintln_bytes identifier in
        ({[ identifier ]} ∪ m,
         Disk (Some (createIfAbsent (store d) +:+ line))
              (fslog d ++ [FsOpenAppend true; FsWrite line]),
         None)
    end.

End Part000.

(** ** The variant with flags: [SafeSet], [appendToArchive],
    [deduplicateArgs] *)

Module Ytmp3V03.

(** The map of a [SafeSet]: [None] is the nil map. *)
Definition SafeSet := option (gset string).

Definition members (s : SafeSet) : gset string := default ∅ s.

Definition Add (item : string) (s : SafeSet) : SafeSet * bool :=
  let m := members s in
  if decide (item ∈ m) then (Some m, false)
  else (Some ({[ item ]} ∪ m), true).

Definition Exists (item : string) (s : SafeSet) : bool :=
  match s with
  | None => false
  | Some m => bool_decide (item ∈ m)
  end.

Definition Remove (item : string) (s : SafeSet) : SafeSet :=
  match s with
  | None => None
  | Some m => Some (m ∖ {[ item ]})
  end.

(** [Load]: the scan loop of the ledger, on top of what the set holds;
    returns the set and [scanner.Err()]. *)
Definition Load (rd : Bufio.readOutcome) (bytes : string) (s : SafeSet)
  : SafeSet * option Bufio.scanError :=
  let '(lines, serr) := Bufio.scan rd bytes in
  (Some (fold_left initArchive_line lines (members s)), serr).

(** [initArchive] of this variant: the set is not reset before the
    load.  The messages are kept without the path and the wrapped
    cause. *)
Definition initArchive (open_ok : bool) (rd : Bufio.readOutcome) (d : disk)
    (s : SafeSet) : SafeSet * disk * option error :=
  if negb open_ok then
    (s, Disk (store d) (fslog d ++ [FsOpenRead false]),
     Some "failed to open/create archive file")
  else
    let bytes := createIfAbsent (store d) in
    let d' := Disk (Some bytes) (fslog d ++ [FsOpenRead true; FsScan]) in
    let '(s', serr) := Load rd bytes s in
    match serr with
    | Some _ => (s', d', Some "error reading archive file")
    | None => (s', d', None)
    end.

(** [appendToArchive]: the identifier is added to the set first and
    taken out again when the open or the write fails.  The messages are
    kept without the path and the wrapped cause. *)
Definition appendToArchive (io : appendIO) (identifier : string)
    (s : SafeSet) (d : disk) : SafeSet * disk * option error :=
  let '(s1, added) := Add identifier s in
  if negb added then (s1, d, None)
  else
    match io with
    | AppendOpenFails =>
        (Remove identifier s1,
         Disk (store d) (fslog d ++ [FsOpenAppend false]),
         Some "archive file open failed")
    | AppendWriteFails n =>
        let part := Bufio.takeBytes n (Fprintln_bytes identifier) in
        (Remove identifier s1,
         Disk (Some (createIfAbsent (store d) +:+ part))
              (fslog d ++ [FsOpenAppend true; FsWrite part]),
         Some "archive file write failed")
    | AppendOk =>
        let line := Fprintln_bytes identifier in
        (s1,
         Disk (Some (createIfAbsent (store d) +:+ line))
              (fslog d ++ [FsOpenAppend true; FsWrite line]),
         None)
    end.

Fixpoint deduplicateArgs_loop (seen : gset string) (unique : list string)
    (args : list string) : list string :=
  match args with
  | [] => unique
  | arg :: rest =>
      let trimmed := GoStrings.TrimSpace arg in
      if decide (trimmed = EmptyString) then deduplicateArgs_loop seen unique rest
      else if decide (trimmed ∈ seen) then deduplicateArgs_loop seen unique rest
      else deduplicateArgs_loop ({[ trimmed ]} ∪ seen) (unique ++ [trimmed]) rest
  end.

Definition deduplicateArgs (args : list string) : list string :=
  if length args <? 2 then args else deduplicateArgs_loop ∅ [] args.

End Ytmp3V03.

(** ** Predicates on the states of a run *)

(** The store reads back as the in-memory ledger. *)
Definition coherent (s : state) : Prop :=
  ∃ bytes,
    store (archive s) = Some bytes ∧ wholeLines bytes
    ∧ Forall Bufio.fits (Bufio.rawLines EmptyString bytes)
    ∧ fold_left initArchive_line (Bufio.lines bytes) ∅ = processedArchive s.

(** A call that appends: the open for appending, or a write. *)
Definition isAppendEvent (ev : fsEvent) : Prop :=
  match ev with
  | FsOpenAppend _ | FsWrite _ => True
  | _ => False
  end.

(** The lines logged and the results in the channel carry the verdicts
    of the goroutines that have sent, and the counters count the lines
    logged. *)
Definition tallied (s : state) : Prop :=
  (logVerdict <$> logged s) ++ (verdictOf <$> results s)
    ≡ₚ verdictsOf sent (goroutines s)
  ∧ countsLogged (count s) (logged s).

(** The first byte, when there is one, is not in the cutset of
    [sanitizeFilename]. *)
Definition headKept (s : string) : Prop :=
  match s with
  | EmptyString => True
  | String c _ => Part000.cutset c = false
  end.

(** ** More sample runs *)

(** A store that holds the identifier [a], before and after the load. *)
Definition sample_archived : disk := Disk (Some (Fprintln_bytes "a")) [].

Definition sample_archived_loaded : disk :=
  Disk (Some (Fprintln_bytes "a")) [FsOpenRead true; FsScan].

(** The end of the run on [a] from an empty store, yt-dlp succeeding. *)
Definition sample_done : state :=
  State ∅ {[ "a" ]}
    (Disk (Some (Fprintln_bytes "a"))
       [FsOpenRead true; FsScan; FsOpenAppend true;
        FsWrite (Fprintln_bytes "a")])
    ["a"] [Goroutine PcExit (ProcessingResult "a" 1 None None)]
    [] true 0 (Counters 1 0 0) [LogLine 1 "a" Success] 1 [] true false
    (Some (SummaryReport false 1 1 0 0)) (MainExited 0).

(** The end of the run on [a] from a store that holds it. *)
Definition sample_skipped : state :=
  State ∅ {[ "a" ]} sample_archived_loaded []
    [Goroutine PcExit
       (ProcessingResult "a" 1 (Some "skipped (archived)") None)]
    [] true 0 (Counters 0 1 0) [LogLine 1 "a" Skipped] 1 [] true false
    (Some (SummaryReport false 1 0 1 0)) (MainExited 0).

(** The run on [a] when its goroutine is about to send its result. *)
Definition sample_sending : state :=
  State ∅ {[ "a" ]}
    (Disk (Some (Fprintln_bytes "a"))
       [FsOpenRead true; FsScan; FsOpenAppend true;
        FsWrite (Fprintln_bytes "a")])
    ["a"] [Goroutine PcSend (ProcessingResult "a" 1 None None)]
    [] false 1 (Counters 0 0 0) [] 1 [] false false None MainCollect.

(* ===================================================================== *)
(** * Part II: properties *)
(* ===================================================================== *)

(** ** The library model on small inputs *)

Example TrimSpace_ascii :
  GoStrings.TrimSpace (GoStrings.of_bytes [32; 9; 97; 32; 98; 13; 10])
  = GoStrings.of_bytes [97; 32; 98].
Proof. reflexivity. Qed.

(** A no-break space in front and an em space behind are stripped; the
    bytes 194 and 160 apart from each other are no white space. *)
Example TrimSpace_unicode :
  GoStrings.TrimSpace (GoStrings.of_bytes [194; 160; 97; 226; 128; 131])
  = GoStrings.of_bytes [97]
  ∧ GoStrings.TrimSpace (GoStrings.of_bytes [194; 97; 160])
    = GoStrings.of_bytes [194; 97; 160].
Proof. split; reflexivity. Qed.

Example Contains_skipped :
  GoStrings.Contains "skipped (archived)" "skipped" = true
  ∧ GoStrings.Contains "duplicate in progress" "skipped" = false
  ∧ GoStrings.Contains "yt-dlp error: exit status 1" "skipped" = false.
Proof. split_and!; reflexivity. Qed.

(** Lines end at a newline, a carriage return before it is dropped,
    and a last line needs no newline. *)
Example lines_sample :
  Bufio.lines (GoStrings.of_bytes [97; 10; 32; 98; 13; 10; 10; 99])
  = [GoStrings.of_bytes [97]; GoStrings.of_bytes [32; 98]; EmptyString;
     GoStrings.of_bytes [99]].
Proof. reflexivity. Qed.

Example initArchive_sample :
  initArchive true Bufio.ReadAll
    (Disk (Some (GoStrings.of_bytes [97; 10; 32; 98; 13; 10; 10; 97])) [])
  = ({[ "a"; "b" ]},
     Disk (Some (GoStrings.of_bytes [97; 10; 32; 98; 13; 10; 10; 97]))
          [FsOpenRead true; FsScan],
     None).
Proof. vm_compute. reflexivity. Qed.

Example deduplicateArgs_sample :
  deduplicateArgs ["a"; "b"; "a"; "c"; "b"] = ["a"; "b"; "c"].
Proof. vm_compute. reflexivity. Qed.

(** ** Input deduplication *)

Section Dedup.

Implicit Types (args earlier unique : list string) (seen : gset string).

Lemma firstOccurrences_elem args : ∀ earlier x,
  x ∈ firstOccurrences earlier args ↔ x ∈ args ∧ x ∉ earlier.
Proof.
  induction args as [|a args IH]; intros earlier x; simpl.
  - set_solver.
  - destruct (decide (a ∈ earlier)) as [Hin|Hout].
    + rewrite IH. set_solver.
    + rewrite elem_of_cons, IH.
      destruct (decide (x = a)) as [->|Hne]; set_solver.
Qed.

Lemma firstOccurrences_NoDup args : ∀ earlier,
  NoDup (firstOccurrences earlier args).
Proof.
  induction args as [|a args IH]; intros earlier; simpl.
  - constructor.
  - destruct (decide (a ∈ earlier)); [apply IH|].
    apply NoDup_cons. split; [|apply IH].
    rewrite firstOccurrences_elem. set_solver.
Qed.

Lemma firstOccurrences_sublist args : ∀ earlier,
  firstOccurrences earlier args `sublist_of` args.
Proof.
  induction args as [|a args IH]; intros earlier; simpl.
  - constructor.
  - destruct (decide (a ∈ earlier)).
    + apply sublist_cons. apply IH.
    + apply sublist_skip. apply IH.
Qed.

(** The loop of [deduplicateArgs], with [seen] holding what came
    [earlier]. *)
Lemma deduplicateArgs_loop_spec args : ∀ seen unique earlier,
  (∀ x, x ∈ seen ↔ x ∈ earlier) →
  deduplicateArgs_loop seen unique args
  = unique ++ firstOccurrences earlier args.
Proof.
  induction args as [|a args IH]; intros seen unique earlier Hseen; simpl.
  - by rewrite app_nil_r.
  - destruct (decide (a ∈ seen)) as [Hin|Hout];
      destruct (decide (a ∈ earlier)) as [Hin'|Hout'];
      try (exfalso; naive_solver).
    + apply IH. intros x. rewrite elem_of_app, <- Hseen. set_solver.
    + rewrite (IH _ _ (earlier ++ [a])).
      * by rewrite <- app_assoc.
      * intros x. rewrite elem_of_app, <- Hseen. set_solver.
Qed.

Lemma deduplicateArgs_first args :
  deduplicateArgs args = firstOccurrences [] args.
Proof.
  unfold deduplicateArgs.
  rewrite (deduplicateArgs_loop_spec args ∅ [] []); [done|].
  set_solver.
Qed.

Lemma deduplicateArgs_NoDup args : NoDup (deduplicateArgs args).
Proof. rewrite deduplicateArgs_first. apply firstOccurrences_NoDup. Qed.

Lemma deduplicateArgs_elem args x : x ∈ deduplicateArgs args ↔ x ∈ args.
Proof.
  rewrite deduplicateArgs_first, firstOccurrences_elem. set_solver.
Qed.

Lemma deduplicateArgs_nil args : deduplicateArgs args = [] ↔ args = [].
Proof.
  split; [|by intros ->].
  destruct args as [|a args]; [done|]. intros Hnil.
  assert (a ∈ deduplicateArgs (a :: args)) as Hin
    by (apply deduplicateArgs_elem; set_solver).
  rewrite Hnil in Hin. set_solver.
Qed.

End Dedup.

(** C9: [deduplicateArgs] returns the subsequence of first occurrences
    of its input: an argument is kept exactly when it does not occur
    earlier, so the result has no duplicate, has the elements of the
    input, and keeps their order.  [main] launches its goroutines on
    that list, one each, in that order. *)
Theorem deduplicateArgs_first_occurrences (args : list string) :
  deduplicateArgs args = firstOccurrences [] args
  ∧ NoDup (deduplicateArgs args)
  ∧ (∀ x, x ∈ deduplicateArgs args ↔ x ∈ args)
  ∧ deduplicateArgs args `sublist_of` args
  ∧ (∀ exe_ok open_ok rd d s0,
       main exe_ok open_ok rd d args = Launched s0 →
       (λ g, Identifier (g_result g)) <$> goroutines s0
       = deduplicateArgs args).
Proof.
  split_and!.
  - apply deduplicateArgs_first.
  - apply deduplicateArgs_NoDup.
  - apply deduplicateArgs_elem.
  - rewrite deduplicateArgs_first. apply firstOccurrences_sublist.
  - intros exe_ok open_ok rd d s0. unfold main.
    destruct exe_ok; simpl; [|done].
    destruct (initArchive open_ok rd d) as [[m d'] [e|]]; [done|].
    destruct (length (deduplicateArgs args) =? 0); [done|].
    intros [= <-]. simpl. rewrite fmap_imap.
    rewrite (imap_ext _ (const id)) by done.
    by rewrite imap_const, list_fmap_id.
Qed.

(** ** Ledger load *)

Section Load.

Import Bufio.

Lemma tokens_fits raw final :
  Forall fits raw → tokens raw final = (dropCR <$> raw, final).
Proof.
  induction 1 as [|l raw Hl _ IH]; simpl; [done|].
  unfold fits in Hl. destruct (N.leb_spec MaxScanTokenSize
    (N.of_nat (String.length l))) as [Hle|_]; [lia|].
  by rewrite IH.
Qed.

Lemma tokens_no_error raw final ts :
  tokens raw final = (ts, None) →
  final = None ∧ ts = dropCR <$> raw ∧ Forall fits raw.
Proof.
  revert ts. induction raw as [|l raw IH]; simpl; intros ts Heq.
  - by inversion Heq.
  - destruct (N.leb_spec MaxScanTokenSize (N.of_nat (String.length l)))
      as [_|Hlt]; [done|].
    destruct (tokens raw final) as [ts' e] eqn:Hts.
    inversion Heq; subst.
    destruct (IH ts' eq_refl) as (-> & -> & Hfits).
    split_and!; [done..|]. by constructor.
Qed.

Lemma tokens_read_error raw e :
  (tokens raw (Some e)).2 ≠ None.
Proof.
  induction raw as [|l raw IH]; simpl; [done|].
  destruct (MaxScanTokenSize <=? _)%N; [done|].
  by destruct (tokens raw (Some e)).
Qed.

Lemma initArchive_lines_elem lines : ∀ (m : gset string) id,
  id ∈ fold_left initArchive_line lines m
  ↔ id ∈ m
    ∨ (id ≠ EmptyString ∧ ∃ l, l ∈ lines ∧ GoStrings.TrimSpace l = id).
Proof.
  induction lines as [|l lines IH]; intros m id; simpl.
  - set_solver.
  - rewrite IH. unfold initArchive_line.
    destruct (decide (GoStrings.TrimSpace l = EmptyString)) as [He|Hne].
    + split; [intros [?|(? & l' & ? & ?)]|intros [?|(? & l' & Hin & ?)]];
        [by left|right; split; [done|]; exists l'; set_solver|by left|].
      apply elem_of_cons in Hin as [->|Hin]; [congruence|].
      right. split; [done|]. by exists l'.
    + rewrite elem_of_union, elem_of_singleton.
      split.
      * intros [[->|?]|(? & l' & ? & ?)];
          [right; split; [done|]; exists l; set_solver|by left|].
        right. split; [done|]. exists l'. set_solver.
      * intros [?|(? & l' & Hin & ?)]; [by left; right|].
        apply elem_of_cons in Hin as [->|Hin]; [by left; left|].
        right. split; [done|]. by exists l'.
Qed.

End Load.

(** C8: [initArchive] opens the backing store, creating it when it is
    absent, and when it returns no error the in-memory ledger is exactly
    the set of the non-blank trimmed lines of the file.  It returns an
    error when the store cannot be opened or read, it does return
    without error when the store opens and reads to its end, and any
    error it returns ends [main] with status 1 before a goroutine is
    launched. *)
Theorem initArchive_load (open_ok : bool) (rd : Bufio.readOutcome) (d : disk) :
  let '(m, d', err) := initArchive open_ok rd d in
  let bytes := createIfAbsent (store d) in
  (err = None →
     open_ok = true ∧ rd = Bufio.ReadAll ∧ store d' = Some bytes
     ∧ ∀ id, id ∈ m
         ↔ id ≠ EmptyString
           ∧ ∃ l, l ∈ Bufio.lines bytes ∧ GoStrings.TrimSpace l = id)
  ∧ (open_ok = false → err ≠ None)
  ∧ (∀ n, rd = Bufio.ReadFails n → err ≠ None)
  ∧ (open_ok = true → rd = Bufio.ReadAll →
     Forall Bufio.fits (Bufio.rawLines EmptyString bytes) → err = None)
  ∧ (err ≠ None →
     ∀ osArgs, main true open_ok rd d osArgs = Aborted 1 FatalArchive d').
Proof.
  unfold main, initArchive. destruct open_ok; simpl.
  - destruct (Bufio.scan rd (createIfAbsent (store d))) as [ls serr] eqn:Hscan.
    destruct serr as [e|]; simpl.
    + split_and!; try done.
      intros _ -> Hfits. simpl in Hscan.
      rewrite tokens_fits in Hscan by done. by inversion Hscan.
    + destruct rd as [|n]; simpl in Hscan.
      * apply tokens_no_error in Hscan as (_ & -> & Hfits).
        split_and!; try done.
        intros _. split_and!; try done.
        intros id. rewrite initArchive_lines_elem. set_solver.
      * pose proof (tokens_read_error
          (Bufio.rawLines EmptyString
             (Bufio.takeBytes n (createIfAbsent (store d)))) Bufio.ErrRead) as Hne.
        rewrite Hscan in Hne. done.
  - split_and!; done.
Qed.

(** ** Ledger append *)

(** The converse: an error is returned on those paths only. *)
Lemma appendToArchive_error_inv io identifier m d m' d' e :
  appendToArchive io identifier m d = (m', d', Some e) →
  io ≠ AppendOk ∧ m' = m.
Proof. destruct io; simpl; intros [= <- <- <-]; done. Qed.

(** ** Lists of goroutines *)

Section Goroutines.

Implicit Types (f : goroutine → bool) (l : list goroutine).

Lemma tally_app f l1 l2 : tally f (l1 ++ l2) = tally f l1 + tally f l2.
Proof. induction l1 as [|g l1 IH]; simpl; [done|]. rewrite IH. lia. Qed.

Lemma itemsOf_app f l1 l2 :
  itemsOf f (l1 ++ l2) = itemsOf f l1 ++ itemsOf f l2.
Proof.
  induction l1 as [|g l1 IH]; simpl; [done|]. rewrite IH. by destruct (f g).
Qed.

Lemma identsOf_app f l1 l2 :
  identsOf f (l1 ++ l2) = identsOf f l1 ++ identsOf f l2.
Proof.
  induction l1 as [|g l1 IH]; simpl; [done|]. rewrite IH. by destruct (f g).
Qed.

Lemma ranks_app l1 l2 : ranks (l1 ++ l2) = ranks l1 + ranks l2.
Proof. induction l1 as [|g l1 IH]; simpl; [done|]. rewrite IH. lia. Qed.

Lemma identsOf_subseteq f l : identsOf f l ⊆ ident <$> l.
Proof.
  induction l as [|g l IH]; simpl; [done|]. destruct (f g); set_solver.
Qed.

Lemma identsOf_not_elem f l id : id ∉ ident <$> l → id ∉ identsOf f l.
Proof. intros Hid Hin. apply Hid. by eapply identsOf_subseteq. Qed.

Lemma identsOf_none f l : Forall (λ g, f g = false) l → identsOf f l = [].
Proof. induction 1 as [|g l Hg _ IH]; simpl; [done|]. by rewrite Hg. Qed.

Lemma itemsOf_length f l : length (itemsOf f l) = tally f l.
Proof.
  induction l as [|g l IH]; simpl; [done|]. destruct (f g); simpl; lia.
Qed.

(** The goroutine at index [i], and the list once it has moved. *)
Lemma goroutines_split l i g :
  l !! i = Some g →
  ∃ l1 l2, l = l1 ++ g :: l2 ∧ ∀ g', <[ i := g' ]> l = l1 ++ g' :: l2.
Proof.
  intros Hi. apply list_elem_of_split_length in Hi as (l1 & l2 & -> & ->).
  exists l1, l2. split; [done|]. intros g'.
  rewrite insert_app_r_alt by lia. by rewrite Nat.sub_diag.
Qed.

Lemma tally_lookup f l i g : l !! i = Some g → f g = true → 0 < tally f l.
Proof.
  intros Hi Hf. destruct (goroutines_split _ _ _ Hi) as (l1 & l2 & -> & _).
  rewrite tally_app. simpl. rewrite Hf. lia.
Qed.

Lemma tally_pos f l : 0 < tally f l → ∃ i g, l !! i = Some g ∧ f g = true.
Proof.
  induction l as [|g l IH]; simpl; [lia|].
  destruct (f g) eqn:Hf.
  - intros _. by exists 0, g.
  - intros Hpos. destruct IH as (i & g' & ? & ?); [lia|]. by exists (S i), g'.
Qed.

Lemma tally_none f l : tally f l = 0 → Forall (λ g, f g = false) l.
Proof.
  induction l as [|g l IH]; simpl; [constructor|].
  destruct (f g) eqn:Hf; [lia|]. intros Ht. constructor; [done|]. by apply IH.
Qed.

End Goroutines.

Ltac list_norm :=
  repeat first
    [ rewrite !fmap_app | rewrite !tally_app | rewrite !itemsOf_app
    | rewrite !identsOf_app | rewrite !ranks_app | rewrite !fmap_cons
    | rewrite !length_app ]; simpl.

Ltac list_norm_in H :=
  repeat first
    [ rewrite !fmap_app in H | rewrite !tally_app in H
    | rewrite !itemsOf_app in H | rewrite !identsOf_app in H
    | rewrite !ranks_app in H | rewrite !fmap_cons in H
    | rewrite !length_app in H ]; simpl in H.

(** ** Outcomes along the paths of [processVideo] *)

Lemma outcome_fresh r : fresh r → outcome_of r = Succeeded.
Proof. intros [He Ha]. unfold outcome_of. by rewrite He, Ha. Qed.

Lemma outcome_with_error r e :
  fresh r →
  outcome_of (with_error e r)
  = if decide (e = "duplicate in progress") then SkippedDuplicate
    else if decide (e = "skipped (archived)") then SkippedAlreadyDone
    else Failed.
Proof. intros [He Ha]. unfold outcome_of. simpl. by rewrite Ha. Qed.

Lemma outcome_ytdlp r msg :
  fresh r → outcome_of (with_error ("yt-dlp error: " +:+ msg) r) = Failed.
Proof.
  intros Hr. rewrite outcome_with_error by done. repeat case_decide; done.
Qed.

Lemma outcome_with_archiveErr r err :
  fresh r →
  outcome_of (with_archiveErr err r)
  = match err with Some _ => SucceededWithLedgerError | None => Succeeded end.
Proof.
  intros [He Ha]. unfold outcome_of. simpl. rewrite He. by destruct err.
Qed.

(** ** The counters *)

Lemma Uint64_Add_small (x : N) :
  (x + 1 < 2 ^ 64)%N → Uint64_Add x 1 = (x + 1)%N.
Proof. intros Hx. unfold Uint64_Add. by apply N.mod_small. Qed.

(** [handleProcessingResult] adds one to exactly one counter. *)
Lemma handleProcessingResult_one result c :
  (counted c + 1 < 2 ^ 64)%N →
  increments_one c (handleProcessingResult result c).2.
Proof.
  unfold counted, handleProcessingResult, increments_one. intros Hc.
  destruct (ArchiveErr result); [|destruct (Error result) as [e|];
    [destruct (GoStrings.Contains e "skipped")|]]; simpl;
    rewrite Uint64_Add_small by lia; auto.
Qed.

Lemma increments_one_counted c c' :
  increments_one c c' → counted c' = (counted c + 1)%N.
Proof. unfold increments_one, counted. lia. Qed.

Lemma handleProcessingResult_item result c :
  logItem (handleProcessingResult result c).1 = ItemNumber result.
Proof.
  unfold handleProcessingResult.
  destruct (ArchiveErr result); [|destruct (Error result) as [e|];
    [destruct (GoStrings.Contains e "skipped")|]]; done.
Qed.

(** ** The launch *)

Section Launch.

Context (m : gset string) (d : disk) (args : list string).

Lemma Forall_imap_intro {A B} (P : B → Prop) (l : list A) :
  ∀ (f : nat → A → B), (∀ i x, P (f i x)) → Forall P (imap f l).
Proof.
  induction l as [|x l IH]; intros f Hf; [constructor|].
  rewrite imap_cons. constructor; [apply Hf|]. apply IH. intros i y. apply Hf.
Qed.

Lemma launch_pcs :
  Forall (λ g, g_pc g = PcStart ∧ fresh (g_result g))
    (goroutines (launch m d args)).
Proof. apply Forall_imap_intro. intros i x. by repeat split. Qed.

Lemma launch_ids : ident <$> goroutines (launch m d args) = args.
Proof.
  simpl. rewrite fmap_imap.
  rewrite (imap_ext _ (const id)) by done.
  by rewrite imap_const, list_fmap_id.
Qed.

Lemma launch_items :
  item <$> goroutines (launch m d args) = seq 1 (length args).
Proof.
  simpl. rewrite fmap_imap.
  rewrite (imap_ext _ (λ j _, id (1 + j))).
  - by rewrite imap_seq, list_fmap_id.
  - intros i x _. unfold item. simpl. lia.
Qed.

Lemma start_tally l :
  Forall (λ g, g_pc g = PcStart ∧ fresh (g_result g)) l →
  tally alive l = length l ∧ itemsOf unsent l = item <$> l
  ∧ identsOf holds l = [] ∧ identsOf started l = []
  ∧ identsOf archived l = [] ∧ ranks l = 8 * length l.
Proof.
  induction 1 as [|g l [Hg _] _ IH]; simpl; [done|].
  destruct IH as (-> & -> & -> & -> & -> & ->).
  unfold alive, unsent, holds, started, archived. rewrite Hg. simpl.
  split_and!; try done; lia.
Qed.

Lemma launch_run_inv : run_inv args (launch m d args).
Proof.
  destruct (start_tally _ launch_pcs) as (Ht & Hi & Hh & _).
  constructor; try done.
  - apply launch_ids.
  - apply launch_items.
  - rewrite Ht. simpl. by rewrite length_imap.
  - rewrite Hi, launch_items. done.
  - rewrite Hh. set_solver.
  - rewrite Hh. constructor.
  - eapply Forall_impl; [exact launch_pcs|]. intros g [Hpc Hfresh].
    unfold result_ok. by rewrite Hpc.
Qed.

Lemma launch_dedup_inv : dedup_inv m (launch m d args).
Proof.
  destruct (start_tally _ launch_pcs) as (_ & _ & _ & Hs & Ha & _).
  constructor; try done.
  - eapply Forall_impl; [exact launch_pcs|]. intros g [Hpc Hfresh].
    unfold goroutine_ok, started. rewrite Hpc, (outcome_fresh _ Hfresh). done.
  - rewrite Hs. set_solver.
  - simpl. constructor.
  - rewrite Ha. set_solver.
Qed.

Lemma launch_remaining : remaining (launch m d args) = 8 * length args + 2.
Proof.
  destruct (start_tally _ launch_pcs) as (_ & _ & _ & _ & _ & Hr).
  unfold remaining. rewrite Hr. simpl. rewrite length_imap. lia.
Qed.

End Launch.

(** ** The invariant along a run *)

Ltac results_ok :=
  apply Forall_app_2; [done|]; apply Forall_cons_2; [|done];
  unfold result_ok; simpl;
  rewrite ?outcome_ytdlp, ?outcome_with_archiveErr, ?outcome_with_error by done;
  repeat case_decide; try done.

Lemma processVideo_step_inv args i g x s s' :
  run_inv args s → goroutines s !! i = Some g → mainAt s = MainCollect →
  processVideo_step i g x s = Some s' → run_inv args s'.
Proof.
  intros [Hids Hitems Htot Hwg Hcl Honce Hcnt Hcol Hex Hint Hpend Hown Hres]
    Hi Hmain Hstep.
  destruct (goroutines_split _ _ _ Hi) as (l1 & l2 & Hl & Hins).
  destruct g as [p r]. unfold processVideo_step in Hstep. simpl in Hstep.
  rewrite Hl in Hids, Hitems, Hwg, Honce, Hpend, Hown, Hres.
  list_norm_in Hids; list_norm_in Hitems; list_norm_in Hwg;
    list_norm_in Honce; list_norm_in Hown.
  apply Forall_app in Hres as [Hres1 Hres2%Forall_cons].
  destruct Hres2 as [Hr Hres2]. unfold result_ok in Hr. simpl in Hr.
  assert (Hpend' : ∀ y, y ∈ pending s
            ↔ y ∈ identsOf holds l1
                  ++ (if holds (Goroutine p r) then [Identifier r] else [])
                  ++ identsOf holds l2).
  { intros y. rewrite Hpend, identsOf_app. simpl. by destruct (holds _). }
  clear Hpend.
  destruct (Hcol Hmain) as [Hctx _].
  destruct p; simpl in *.
  - (* markPending *)
    unfold markPending in Hstep.
    destruct (decide (Identifier r ∈ pending s)) as [Hin|Hout];
      inversion Hstep; subst s'; clear Hstep;
      constructor; simpl; rewrite ?Hins; list_norm; try done;
      try by results_ok.
    + intros y. rewrite elem_of_union, elem_of_singleton, Hpend'.
      unfold ident; simpl. set_solver.
    + rewrite <- Permutation_middle. apply NoDup_cons. split; [|done].
      unfold ident; simpl. by rewrite <- Hpend'.
  - (* the look-up in the ledger *)
    rewrite Hctx in Hstep.
    destruct (decide (Identifier r ∈ processedArchive s));
      inversion Hstep; subst s'; clear Hstep;
      constructor; simpl; rewrite ?Hins; list_norm; try done;
      try by results_ok.
  - (* cmd.Run returns *)
    destruct (cmdErr x);
      inversion Hstep; subst s'; clear Hstep;
      constructor; simpl; rewrite ?Hins; list_norm; try done;
      try by results_ok.
  - (* appendToArchive *)
    destruct (appendToArchive _ _ _ _) as [[m d] err];
      inversion Hstep; subst s'; clear Hstep;
      constructor; simpl; rewrite ?Hins; list_norm; try done.
    results_ok. by destruct err.
  - (* unmarkPending *)
    inversion Hstep; subst s'; clear Hstep;
      constructor; simpl; rewrite ?Hins; list_norm; try done;
      try by results_ok.
    + intros y. unfold unmarkPending.
      rewrite elem_of_difference, elem_of_singleton, Hpend'.
      rewrite <- Permutation_middle in Hown.
      apply NoDup_cons in Hown as [Hout _].
      unfold ident in *; simpl in *. set_solver.
    + rewrite <- Permutation_middle in Hown.
      by apply NoDup_cons in Hown as [_ ?].
  - (* the send *)
    destruct (resultsClosed s) eqn:Hclosed; [done|].
    destruct (length (results s) <? totalItems s) eqn:Hlen; [|done].
    inversion Hstep; subst s'; clear Hstep;
      constructor; simpl; rewrite ?Hins; list_norm; try done;
      try by results_ok.
    + intros; congruence.
    + rewrite <- Honce. f_equiv. rewrite <- app_assoc. f_equiv. simpl.
      apply Permutation_middle.
    + intros; congruence.
  - (* wg.Done *)
    destruct (wg s) as [|n] eqn:Hn; [done|].
    inversion Hstep; subst s'; clear Hstep;
      constructor; simpl; rewrite ?Hins; list_norm; try done;
      try by results_ok.
    + lia.
    + intros Hc. by specialize (Hcl Hc).
  - done.
Qed.

Lemma step_run_inv args e s s' :
  (N.of_nat (length args) < 2 ^ 64)%N →
  run_inv args s → step e s = Some s' → run_inv args s'.
Proof.
  intros Hbound Hinv Hstep. unfold step in Hstep.
  destruct (mainAt s) eqn:Hmain; [|done].
  destruct e as [i x| | | |sig].
  - destruct (goroutines s !! i) as [g|] eqn:Hi; [|done].
    by eapply processVideo_step_inv.
  - destruct Hinv as
      [Hids Hitems Htot Hwg Hcl Honce Hcnt Hcol Hex Hint Hpend Hown Hres].
    destruct (resultsClosed s) eqn:Hclosed; [done|].
    destruct (wg s) eqn:Hn; [|done].
    inversion Hstep; subst s'.
    constructor; simpl; try done; try (by intros; eauto).
  - destruct Hinv as
      [Hids Hitems Htot Hwg Hcl Honce Hcnt Hcol Hex Hint Hpend Hown Hres].
    destruct (results s) as [|r rest] eqn:Hres'; [done|].
    inversion Hstep; subst s'. clear Hstep.
    assert (length (logged s) < length args) as Hlt.
    { apply Permutation_length in Honce.
      rewrite !length_app, !length_fmap, length_seq in Honce.
      simpl in Honce. lia. }
    constructor; simpl; try done; try (by intros; eauto).
    + rewrite fmap_app. simpl. rewrite handleProcessingResult_item.
      rewrite <- Honce. rewrite <- app_assoc. done.
    + rewrite (increments_one_counted (count s))
        by (apply handleProcessingResult_one; lia).
      rewrite length_app. simpl. lia.
    + intros; congruence.
  - destruct Hinv as
      [Hids Hitems Htot Hwg Hcl Honce Hcnt Hcol Hex Hint Hpend Hown Hres].
    destruct (results s) as [|r rest] eqn:Hres'; [|done].
    destruct (resultsClosed s) eqn:Hclosed; [|done].
    inversion Hstep; subst s'. clear Hstep.
    constructor; simpl; try done; try (by intros; eauto).
    intros code [= <-]. by rewrite Hint.
  - destruct Hinv as
      [Hids Hitems Htot Hwg Hcl Honce Hcnt Hcol Hex Hint Hpend Hown Hres].
    inversion Hstep; subst s'. clear Hstep.
    constructor; simpl; try done; try (by intros; eauto).
Qed.

Lemma exec_run_inv args tr : ∀ s s',
  (N.of_nat (length args) < 2 ^ 64)%N →
  run_inv args s → exec tr s = Some s' → run_inv args s'.
Proof.
  induction tr as [|e tr IH]; intros s s' Hb Hinv Hexec; simpl in Hexec.
  - by inversion Hexec; subst.
  - destruct (step e s) as [s1|] eqn:Hstep; [|done].
    eapply IH; [done| |done]. by eapply step_run_inv.
Qed.

(** ** Progress and termination *)

(** A step that is not a signal uses up some of what remains. *)
Lemma step_remaining e s s' :
  step e s = Some s' → isSignal e = false → remaining s' < remaining s.
Proof.
  unfold step. destruct (mainAt s) eqn:Hmain; [|done].
  destruct e as [i x| | | |sig]; intros Hstep Hsig; [| | | |done].
  - destruct (goroutines s !! i) as [[p r]|] eqn:Hi; [|done].
    destruct (goroutines_split _ _ _ Hi) as (l1 & l2 & Hl & Hins).
    unfold processVideo_step in Hstep. simpl in Hstep.
    destruct p; simpl in Hstep;
      repeat match type of Hstep with
        | context [markPending ?a ?b] => unfold markPending in Hstep
        | context [decide ?P] => destruct (decide P)
        | context [ctxCancelled s] => destruct (ctxCancelled s)
        | context [cmdErr x] => destruct (cmdErr x)
        | context [appendToArchive ?a ?b ?c ?d] =>
            destruct (appendToArchive a b c d) as [[? ?] ?]
        | context [resultsClosed s] => destruct (resultsClosed s) eqn:?
        | context [length (results s) <? totalItems s] =>
            destruct (length (results s) <? totalItems s)
        | context [wg s] => destruct (wg s)
        end; try done;
      inversion Hstep; subst s'; unfold remaining; simpl;
      rewrite ?Hmain, ?Hins, ?Hl, ?ranks_app, ?length_app; simpl;
      repeat match goal with H : resultsClosed s = _ |- _ => rewrite H end; lia.
  - destruct (resultsClosed s) eqn:Hc; [done|]. destruct (wg s); [|done].
    inversion Hstep; subst s'. unfold remaining. simpl. rewrite Hc, Hmain. lia.
  - destruct (results s) eqn:Hr; [done|]. inversion Hstep; subst s'.
    unfold remaining. simpl. rewrite Hr, Hmain. simpl. lia.
  - destruct (results s) eqn:Hr; [|done]. destruct (resultsClosed s) eqn:Hc; [|done].
    inversion Hstep; subst s'. unfold remaining. simpl. rewrite Hr, Hc, Hmain. simpl. lia.
Qed.

Lemma step_signal_remaining sig s s' :
  step (EvSignal sig) s = Some s' → remaining s' = remaining s.
Proof.
  unfold step. destruct (mainAt s) eqn:Hmain; [|done].
  intros [= <-]. unfold remaining. simpl. by rewrite Hmain.
Qed.

(** No schedule is longer than what remains, signals apart. *)
Lemma exec_remaining tr : ∀ s s',
  exec tr s = Some s' →
  length (filter (λ e, isSignal e = false) tr) + remaining s' ≤ remaining s.
Proof.
  induction tr as [|e tr IH]; intros s s' Hexec; simpl in Hexec.
  - inversion Hexec; subst. simpl. lia.
  - destruct (step e s) as [s1|] eqn:Hstep; [|done].
    specialize (IH _ _ Hexec). rewrite filter_cons.
    destruct (decide (isSignal e = false)) as [Hsig|Hsig].
    + pose proof (step_remaining _ _ _ Hstep Hsig). simpl. lia.
    + destruct e; try done. pose proof (step_signal_remaining _ _ _ Hstep). lia.
Qed.

(** While [main] collects, some step other than a signal is enabled:
    no send blocks, no channel operation panics. *)
Lemma step_progress args ext s :
  run_inv args s → mainAt s = MainCollect →
  ∃ e s', step e s = Some s' ∧ isSignal e = false ∧ answers ext [e].
Proof.
  intros Hinv Hmain.
  destruct (decide (0 < tally alive (goroutines s))) as [Hpos|Hzero].
  - apply tally_pos in Hpos as (i & [p r] & Hi & Halive).
    exists (EvJob i (ext i)).
    assert (resultsClosed s = false) as Hopen.
    { destruct (resultsClosed s) eqn:Hc; [|done].
      pose proof (inv_closed _ _ Hinv Hc) as Hwg. rewrite (inv_wg _ _ Hinv) in Hwg.
      pose proof (tally_lookup alive _ _ _ Hi Halive). lia. }
    assert (∃ s', processVideo_step i (Goroutine p r) (ext i) s = Some s')
      as [s' Hs'].
    { unfold processVideo_step. simpl. destruct p; simpl; try by eauto.
      - unfold markPending. destruct (decide _); eauto.
      - destruct (decide _); [|destruct (ctxCancelled s)]; eauto.
      - destruct (cmdErr (ext i)); eauto.
      - destruct (appendToArchive _ _ _ _) as [[? ?] ?]. eauto.
      - rewrite Hopen.
        pose proof (inv_once _ _ Hinv) as Honce. apply Permutation_length in Honce.
        rewrite !length_app, !length_fmap, length_seq, itemsOf_length in Honce.
        pose proof (tally_lookup unsent _ _ _ Hi eq_refl).
        rewrite (inv_total _ _ Hinv).
        destruct (Nat.ltb_spec (length (results s)) (length args)); [eauto|lia].
      - pose proof (tally_lookup alive _ _ _ Hi eq_refl) as Hw.
        rewrite <- (inv_wg _ _ Hinv) in Hw. destruct (wg s); [lia|eauto]. }
    exists s'. unfold step. rewrite Hmain, Hi. split_and!; [done..|].
    by repeat constructor.
  - assert (wg s = 0) as Hwg by (rewrite (inv_wg _ _ Hinv); lia).
    destruct (resultsClosed s) eqn:Hc.
    + destruct (results s) as [|r rest] eqn:Hr.
      * exists EvReturn. eexists. unfold step. rewrite Hmain, Hr, Hc.
        split_and!; [done..|]. by repeat constructor.
      * exists EvRecv. eexists. unfold step. rewrite Hmain, Hr.
        split_and!; [done..|]. by repeat constructor.
    + exists EvWaiter. eexists. unfold step. rewrite Hmain, Hc, Hwg.
      split_and!; [done..|]. by repeat constructor.
Qed.

(** Whatever the outside world answers, the run can be scheduled to
    the end. *)
Lemma run_completes args ext :
  (N.of_nat (length args) < 2 ^ 64)%N →
  ∀ n s, remaining s ≤ n → run_inv args s → mainAt s = MainCollect →
  ∃ tr s', answers ext tr ∧ exec tr s = Some s' ∧ mainAt s' = MainExited 0.
Proof.
  intros Hb. induction n as [|n IH]; intros s Hn Hinv Hmain.
  - unfold remaining in Hn. rewrite Hmain in Hn. lia.
  - destruct (step_progress args ext s Hinv Hmain) as (e & s1 & Hstep & Hsig & Hans).
    pose proof (step_remaining _ _ _ Hstep Hsig) as Hlt.
    pose proof (step_run_inv _ _ _ _ Hb Hinv Hstep) as Hinv1.
    destruct (mainAt s1) as [|code] eqn:Hmain1.
    + destruct (IH s1) as (tr & s' & Htr & Hexec & Hend); [lia|done..|].
      exists (e :: tr), s'. split_and!; [|simpl; by rewrite Hstep|done].
      apply Forall_cons. split; [|done]. by inversion Hans.
    + exists [e], s1. split_and!; [done|simpl; by rewrite Hstep|].
      by destruct (inv_exited _ _ Hinv1 code Hmain1) as [-> _].
Qed.

(** ** Distinct identifiers *)

(** Another identifier entering the ledger leaves a goroutine as it is. *)
Lemma goroutine_ok_append m0 m id g :
  ident g ≠ id → goroutine_ok m0 m g → goroutine_ok m0 ({[ id ]} ∪ m) g.
Proof.
  intros Hne (Hpc & Hrest). split; [|done].
  destruct (g_pc g); try done; destruct Hpc; (split; [done|]); set_solver.
Qed.

Lemma Forall_goroutine_ok_append m0 m id l :
  id ∉ ident <$> l →
  Forall (goroutine_ok m0 m) l → Forall (goroutine_ok m0 ({[ id ]} ∪ m)) l.
Proof.
  intros Hid Hl. apply Forall_forall. intros g Hg.
  apply goroutine_ok_append.
  - intros <-. apply Hid. apply list_elem_of_fmap. by exists g.
  - by eapply Forall_forall in Hl.
Qed.

Lemma processVideo_step_dedup args m0 i g x s s' :
  NoDup args → run_inv args s → dedup_inv m0 s →
  goroutines s !! i = Some g → mainAt s = MainCollect →
  processVideo_step i g x s = Some s' → dedup_inv m0 s'.
Proof.
  intros Hnd Hinv [Hgs Hsent Hsp Hsp1 Hled] Hi Hmain Hstep.
  destruct (goroutines_split _ _ _ Hi) as (l1 & l2 & Hl & Hins).
  pose proof (inv_ids _ _ Hinv) as Hids.
  pose proof (inv_pending _ _ Hinv) as Hpend.
  destruct (inv_collect _ _ Hinv Hmain) as [Hctx _].
  rewrite Hl in Hids, Hpend, Hgs, Hsp, Hled.
  rewrite fmap_app, fmap_cons in Hids. rewrite <- Hids in Hnd.
  apply NoDup_app in Hnd as (_ & Hnd1 & Hnd2%NoDup_cons).
  destruct Hnd2 as [Hid2 _].
  assert (ident g ∉ ident <$> l1) as Hid1.
  { intros Hin. apply (Hnd1 _ Hin). by left. }
  clear Hnd1 Hids.
  rewrite identsOf_app in Hpend, Hsp, Hled. simpl in Hpend, Hsp, Hled.
  apply Forall_app in Hgs as [Hg1 Hg2%Forall_cons]. destruct Hg2 as [Hg Hg2].
  destruct g as [p r]. unfold processVideo_step in Hstep. simpl in Hstep.
  destruct Hg as (Hpc & Hdup & Hskip & Hstart). simpl in Hpc.
  unfold ident in Hid1, Hid2; simpl in Hid1, Hid2.
  pose proof (λ f, identsOf_not_elem f _ _ Hid1) as Hno1.
  pose proof (λ f, identsOf_not_elem f _ _ Hid2) as Hno2.
  destruct p; simpl in *.
  - (* markPending *)
    unfold markPending in Hstep.
    destruct (decide (Identifier r ∈ pending s)) as [Hin|Hout].
    { apply Hpend in Hin. apply elem_of_app in Hin as [Hin|Hin];
        [by apply Hno1 in Hin|by apply Hno2 in Hin]. }
    inversion Hstep; subst s'; clear Hstep.
    constructor; simpl; rewrite ?Hins, ?identsOf_app; simpl; try done.
    apply Forall_app_2; [done|]. apply Forall_cons_2; [|done].
    unfold goroutine_ok; simpl; split_and!; try done.
  - (* the look-up in the ledger *)
    rewrite Hctx in Hstep.
    destruct (decide (Identifier r ∈ processedArchive s)) as [Hin|Hout];
      inversion Hstep; subst s'; clear Hstep;
      constructor; simpl; rewrite ?Hins, ?identsOf_app; simpl;
      unfold started, archived; simpl;
      rewrite ?outcome_with_error by done; simpl; try done.
    + apply Forall_app_2; [done|]. apply Forall_cons_2; [|done].
      unfold goroutine_ok, started; simpl.
      rewrite outcome_with_error by done. simpl. split_and!; try done.
      intros _. unfold ident; simpl.
      apply Hled in Hin as [Hin|Hin]; [done|].
      apply elem_of_app in Hin as [Hin|Hin];
        [by apply Hno1 in Hin|by apply Hno2 in Hin].
    + apply Forall_app_2; [done|]. apply Forall_cons_2; [|done].
      unfold goroutine_ok, started; simpl. split_and!; try done.
      intros _. unfold ident; simpl. intros Hm0. apply Hout, Hled. by left.
    + intros y. rewrite elem_of_app, Hsp. unfold ident; simpl. set_solver.
    + apply NoDup_app. split_and!; [done| |apply NoDup_singleton].
      intros y Hy ->%list_elem_of_singleton. apply Hsp in Hy.
      apply elem_of_app in Hy as [Hy|Hy];
        [by apply Hno1 in Hy|by apply Hno2 in Hy].
  - (* cmd.Run returns *)
    destruct Hpc as [Hfresh Hnot].
    destruct (cmdErr x) as [msg|];
      inversion Hstep; subst s'; clear Hstep;
      constructor; simpl; rewrite ?Hins, ?identsOf_app; simpl;
      unfold started, archived; simpl;
      rewrite ?outcome_ytdlp by done; simpl; try done;
      (apply Forall_app_2; [done|]; apply Forall_cons_2; [|done]);
      unfold goroutine_ok, started; simpl;
      rewrite ?outcome_ytdlp by done; simpl; split_and!; try done;
      try (intros _; by apply Hstart).
  - (* appendToArchive *)
    destruct Hpc as [Hfresh Hnot].
    destruct (appendFate x) as [|n|]; simpl in Hstep;
      inversion Hstep; subst s'; clear Hstep;
      constructor; simpl; rewrite ?Hins, ?identsOf_app; simpl;
      unfold started, archived; simpl;
      rewrite ?outcome_with_archiveErr by done; simpl; try done.
    + apply Forall_app_2; [done|]. apply Forall_cons_2; [|done].
      unfold goroutine_ok, started; simpl.
      rewrite outcome_with_archiveErr by done. simpl. split_and!; try done.
      all: try (intros _; by apply Hstart).
    + apply Forall_app_2; [done|]. apply Forall_cons_2; [|done].
      unfold goroutine_ok, started; simpl.
      rewrite outcome_with_archiveErr by done. simpl. split_and!; try done.
      all: try (intros _; by apply Hstart).
    + apply Forall_app_2; [by apply Forall_goroutine_ok_append|].
      apply Forall_cons_2; [|by apply Forall_goroutine_ok_append].
      unfold goroutine_ok, started; simpl.
      rewrite outcome_with_archiveErr by done. simpl. split_and!; try done.
      all: try (intros _; by apply Hstart).
    + intros y. rewrite elem_of_union, elem_of_singleton, Hled.
      unfold ident; simpl. set_solver.
  - (* unmarkPending *)
    inversion Hstep; subst s'; clear Hstep;
      constructor; simpl; rewrite ?Hins, ?identsOf_app; simpl; try done.
    apply Forall_app_2; [done|]. apply Forall_cons_2; [|done].
    unfold goroutine_ok, started in *; simpl in *. split_and!; done.
  - (* the send *)
    destruct (resultsClosed s); [done|].
    destruct (length (results s) <? totalItems s); [|done].
    inversion Hstep; subst s'; clear Hstep;
      constructor; simpl; rewrite ?Hins, ?identsOf_app; simpl; try done.
    + apply Forall_app_2; [done|]. apply Forall_cons_2; [|done].
      unfold goroutine_ok, started in *; simpl in *. split_and!; done.
    + apply Forall_app_2; [done|]. by apply Forall_singleton.
  - (* wg.Done *)
    destruct (wg s); [done|].
    inversion Hstep; subst s'; clear Hstep;
      constructor; simpl; rewrite ?Hins, ?identsOf_app; simpl; try done.
    apply Forall_app_2; [done|]. apply Forall_cons_2; [|done].
    unfold goroutine_ok, started in *; simpl in *. split_and!; done.
  - done.
Qed.

Lemma step_dedup_inv args m0 e s s' :
  NoDup args → run_inv args s → dedup_inv m0 s →
  step e s = Some s' → dedup_inv m0 s'.
Proof.
  intros Hnd Hinv Hd Hstep. unfold step in Hstep.
  destruct (mainAt s) eqn:Hmain; [|done].
  destruct e as [i x| | | |sig].
  - destruct (goroutines s !! i) as [g|] eqn:Hi; [|done].
    by eapply processVideo_step_dedup.
  - destruct Hd. destruct (resultsClosed s); [done|]. destruct (wg s); [|done].
    inversion Hstep; subst s'. by constructor.
  - destruct Hd as [? Hsent ? ? ?]. destruct (results s) as [|r rest]; [done|].
    inversion Hstep; subst s'. constructor; simpl; try done.
    by apply Forall_cons in Hsent as [_ ?].
  - destruct Hd. destruct (results s); [|done]. destruct (resultsClosed s); [|done].
    inversion Hstep; subst s'. by constructor.
  - destruct Hd. inversion Hstep; subst s'. by constructor.
Qed.

Lemma exec_invariants args m0 tr : ∀ s s',
  (N.of_nat (length args) < 2 ^ 64)%N → NoDup args →
  run_inv args s → dedup_inv m0 s → exec tr s = Some s' →
  run_inv args s' ∧ dedup_inv m0 s'.
Proof.
  induction tr as [|e tr IH]; intros s s' Hb Hnd Hinv Hd Hexec; simpl in Hexec.
  - by inversion Hexec; subst.
  - destruct (step e s) as [s1|] eqn:Hstep; [|done].
    eapply IH; [done..| | |done].
    + by eapply step_run_inv.
    + by eapply step_dedup_inv.
Qed.

(** ** The run of [main] *)

Lemma main_launched exe_ok open_ok rd d osArgs s0 :
  main exe_ok open_ok rd d osArgs = Launched s0 →
  ∃ m d', initArchive open_ok rd d = (m, d', None)
          ∧ s0 = launch m d' (deduplicateArgs osArgs)
          ∧ deduplicateArgs osArgs ≠ [].
Proof.
  unfold main. destruct exe_ok; simpl; [|done].
  destruct (initArchive open_ok rd d) as [[m d'] [e|]]; [done|].
  destruct (deduplicateArgs osArgs) as [|a args] eqn:Hargs; simpl; [done|].
  intros [= <-]. by exists m, d'.
Qed.

Lemma deduplicateArgs_bound osArgs :
  (N.of_nat (length osArgs) < 2 ^ 64)%N →
  (N.of_nat (length (deduplicateArgs osArgs)) < 2 ^ 64)%N.
Proof.
  intros Hb.
  pose proof (sublist_length (deduplicateArgs osArgs) osArgs) as Hlen.
  rewrite deduplicateArgs_first in *.
  specialize (Hlen (firstOccurrences_sublist _ _)). lia.
Qed.

Lemma main_invariants exe_ok open_ok rd d osArgs s0 tr s :
  (N.of_nat (length osArgs) < 2 ^ 64)%N →
  main exe_ok open_ok rd d osArgs = Launched s0 →
  exec tr s0 = Some s →
  run_inv (deduplicateArgs osArgs) s ∧ dedup_inv (processedArchive s0) s.
Proof.
  intros Hb Hmain Hexec.
  apply main_launched in Hmain as (m & d' & _ & -> & _).
  eapply exec_invariants; [by apply deduplicateArgs_bound| | | |done].
  - apply deduplicateArgs_NoDup.
  - apply launch_run_inv.
  - apply launch_dedup_inv.
Qed.

(** C1: in a run of [main], once [main] has returned the number of
    jobs submitted is the sum of the three counters, every item number
    has been logged by the result handler exactly once, and each
    result handled added one to exactly one counter.  At any time the
    result of every job is in exactly one place: still to be sent by
    its goroutine, in the channel, or handled.  The run does get
    there: while [main] collects some step is enabled (no send blocks),
    no schedule takes more than [8 * n + 2] steps besides signals, and
    whatever yt-dlp and the file system answer there is a schedule to
    the end.  The bound on the number of arguments is below that of any
    Go slice; it keeps the 64-bit counters from wrapping. *)
Theorem run_accounts_for_every_job
    (exe_ok open_ok : bool) (rd : Bufio.readOutcome) (d : disk)
    (osArgs : list string) (s0 : state) :
  (N.of_nat (length osArgs) < 2 ^ 64)%N →
  main exe_ok open_ok rd d osArgs = Launched s0 →
  (∀ tr s code, exec tr s0 = Some s → mainAt s = MainExited code →
     N.of_nat (totalItems s)
     = (processedCount (count s) + skippedCount (count s)
        + errorCount (count s))%N
     ∧ totalItems s = length (deduplicateArgs osArgs)
     ∧ logItem <$> logged s ≡ₚ seq 1 (totalItems s)
     ∧ summary s = Some (printSummary false (totalItems s) (count s)))
  ∧ (∀ tr s s', exec tr s0 = Some s → step EvRecv s = Some s' →
       increments_one (count s) (count s')
       ∧ length (results s) = S (length (results s')))
  ∧ (∀ tr s, exec tr s0 = Some s →
       (logItem <$> logged s) ++ (ItemNumber <$> results s)
         ++ itemsOf unsent (goroutines s)
       ≡ₚ seq 1 (length (deduplicateArgs osArgs)))
  ∧ (∀ tr s, exec tr s0 = Some s → mainAt s = MainCollect →
       ∃ e s', isSignal e = false ∧ step e s = Some s')
  ∧ (∀ tr s, exec tr s0 = Some s →
       length (filter (λ e, isSignal e = false) tr)
       ≤ 8 * length (deduplicateArgs osArgs) + 2)
  ∧ (∀ ext, ∃ tr s,
       answers ext tr ∧ exec tr s0 = Some s ∧ mainAt s = MainExited 0).
Proof.
  intros Hb Hmain.
  pose proof (λ tr s, main_invariants _ _ _ _ _ _ tr s Hb Hmain) as Hinvs.
  pose proof (deduplicateArgs_bound _ Hb) as Hb'.
  split_and!; [| |by intros tr s Hexec; apply (Hinvs _ _ Hexec)| | |].
  - intros tr s code Hexec Hexit.
    destruct (Hinvs _ _ Hexec) as [Hinv _].
    destruct (inv_exited _ _ Hinv code Hexit) as (_ & Hc & Hr & Hsum).
    pose proof (inv_once _ _ Hinv) as Honce.
    pose proof (inv_wg _ _ Hinv) as Hwg.
    rewrite (inv_closed _ _ Hinv Hc) in Hwg. symmetry in Hwg.
    apply tally_none in Hwg.
    assert (itemsOf unsent (goroutines s) = []) as Hnone.
    { clear -Hwg. induction Hwg as [|g l Hg _ IH]; simpl; [done|].
      unfold alive, unsent in *. destruct (g_pc g); done. }
    rewrite Hr, Hnone in Honce. simpl in Honce. rewrite app_nil_r in Honce.
    pose proof (inv_total _ _ Hinv) as Htot.
    split_and!; [|done|by rewrite Htot|done].
    pose proof (inv_counted _ _ Hinv) as Hcnt. unfold counted in Hcnt.
    rewrite Hcnt, Htot. apply Permutation_length in Honce.
    rewrite length_fmap, length_seq in Honce. by rewrite Honce.
  - intros tr s s' Hexec Hstep.
    destruct (Hinvs _ _ Hexec) as [Hinv _].
    unfold step in Hstep. destruct (mainAt s); [|done].
    destruct (results s) as [|r rest] eqn:Hr; [done|].
    inversion Hstep; subst s'. simpl. split; [|done].
    apply handleProcessingResult_one.
    pose proof (inv_once _ _ Hinv) as Honce. apply Permutation_length in Honce.
    rewrite Hr, !length_app, !length_fmap, length_seq in Honce.
    simpl in Honce. rewrite (inv_counted _ _ Hinv). lia.
  - intros tr s Hexec Hcollect.
    destruct (Hinvs _ _ Hexec) as [Hinv _].
    destruct (step_progress _ (λ _, External None AppendOk) _ Hinv Hcollect)
      as (e & s' & ? & ? & _).
    by exists e, s'.
  - intros tr s Hexec. pose proof (exec_remaining _ _ _ Hexec) as Hrem.
    apply main_launched in Hmain as (m & d' & _ & -> & _).
    rewrite launch_remaining in Hrem. lia.
  - intros ext.
    destruct (Hinvs [] s0 eq_refl) as [Hinv _].
    apply (run_completes _ ext Hb' (remaining s0) s0); [done..|].
    apply main_launched in Hmain as (m & d' & _ & -> & _). done.
Qed.

Lemma run_accounts_for_every_job_witness :
  let s0 := launch ∅ sample_loaded ["a"; "b"] in
  (N.of_nat (length ["a"; "a"; "b"]) < 2 ^ 64)%N
  ∧ main true true Bufio.ReadAll sample_disk ["a"; "a"; "b"] = Launched s0
  ∧ (∀ tr s code, exec tr s0 = Some s → mainAt s = MainExited code →
       N.of_nat (totalItems s)
       = (processedCount (count s) + skippedCount (count s)
          + errorCount (count s))%N
       ∧ totalItems s = length (deduplicateArgs ["a"; "a"; "b"])
       ∧ logItem <$> logged s ≡ₚ seq 1 (totalItems s)
       ∧ summary s = Some (printSummary false (totalItems s) (count s))).
Proof.
  split_and!; [reflexivity|reflexivity|].
  apply (run_accounts_for_every_job true true Bufio.ReadAll sample_disk
           ["a"; "a"; "b"] (launch ∅ sample_loaded ["a"; "b"]));
    [reflexivity|reflexivity].
Defined.

(** ** Exit code *)

(** C3, as the code has it: the exit status is 1 exactly when [main]
    stops before it launches a goroutine (no executable path, ledger
    not loaded, no argument), and it is 0 whenever the run reaches its
    summary, whatever the outcomes of the jobs and the error counter. *)
Theorem exit_code_ignores_outcomes
    (exe_ok open_ok : bool) (rd : Bufio.readOutcome) (d : disk)
    (osArgs : list string) :
  (N.of_nat (length osArgs) < 2 ^ 64)%N →
  match main exe_ok open_ok rd d osArgs with
  | Aborted code why _ =>
      code = 1%Z
      ∧ match why with
        | FatalExecutable => exe_ok = false
        | FatalArchive => (initArchive open_ok rd d).2 ≠ None
        | UsageError => osArgs = []
        end
  | Launched s0 =>
      ∀ tr s code, exec tr s0 = Some s → mainAt s = MainExited code →
        code = 0%Z
  end.
Proof.
  intros Hb. destruct (main exe_ok open_ok rd d osArgs) as [code why d'|s0]
    eqn:Hmain.
  - unfold main in Hmain. destruct exe_ok; simpl in Hmain.
    + destruct (initArchive open_ok rd d) as [[m d1] [e|]]; simpl.
      * by inversion Hmain; subst.
      * destruct (deduplicateArgs osArgs) as [|a args] eqn:Hargs;
          simpl in Hmain; inversion Hmain; subst.
        split; [done|]. by apply deduplicateArgs_nil.
    + by inversion Hmain; subst.
  - intros tr s code Hexec Hexit.
    destruct (main_invariants _ _ _ _ _ _ _ _ Hb Hmain Hexec) as [Hinv _].
    by destruct (inv_exited _ _ Hinv code Hexit) as [-> _].
Qed.

Lemma exit_code_ignores_outcomes_witness :
  (N.of_nat (length ["b"]) < 2 ^ 64)%N
  ∧ ∀ tr s code,
      exec tr (launch ∅ sample_loaded ["b"]) = Some s →
      mainAt s = MainExited code → code = 0%Z.
Proof.
  split; [reflexivity|].
  apply (exit_code_ignores_outcomes true true Bufio.ReadAll sample_disk ["b"]).
  reflexivity.
Defined.

(** The claim of C3 fails: yt-dlp fails for the only job, the error
    counter ends at 1, and the exit status is 0. *)
Lemma exit_zero_after_failed_job :
  main true true Bufio.ReadAll sample_disk ["b"]
  = Launched (launch ∅ sample_loaded ["b"])
  ∧ observe <$> exec (sample_schedule 6 sample_failing)
                  (launch ∅ sample_loaded ["b"])
    = Some ([Failed], ["b"], Counters 0 0 1,
            Some (SummaryReport false 1 0 0 1), MainExited 0).
Proof. split; vm_compute; reflexivity. Qed.

(** ** Empty input *)

(** C4, as the code has it: with no argument the ledger is loaded
    first (the store is opened, created when absent, and read); then
    the run ends with status 1, as a usage error when the load went
    through and as a fatal error when it did not.  No goroutine is
    launched and nothing is appended. *)
Theorem empty_input_loads_ledger_first
    (open_ok : bool) (rd : Bufio.readOutcome) (d : disk) :
  let '(m, d', err) := initArchive open_ok rd d in
  main true open_ok rd d []
  = Aborted 1 (match err with Some _ => FatalArchive | None => UsageError end)
      d'
  ∧ fslog d'
    = fslog d ++ (if open_ok then [FsOpenRead true; FsScan]
                  else [FsOpenRead false])
  ∧ store d' = (if open_ok then Some (createIfAbsent (store d)) else store d)
  ∧ main false open_ok rd d [] = Aborted 1 FatalExecutable d.
Proof.
  unfold main, initArchive. destruct open_ok; simpl; [|done].
  destruct (Bufio.scan rd (createIfAbsent (store d))) as [ls [e|]]; done.
Qed.

(** The claim of C4 fails: with no argument and no archive file, the
    file has been created and read by the time the usage error ends
    the run. *)
Lemma empty_input_creates_store :
  main true true Bufio.ReadAll (Disk None []) []
  = Aborted 1 UsageError (Disk (Some "") [FsOpenRead true; FsScan]).
Proof. reflexivity. Qed.

(** ** Interrupts *)

(** C7 against the code: however many signals arrive and whenever,
    the context is not cancelled while [main] collects results, the
    flag [interrupted] stays false, a signal changes nothing but the
    buffer of [shutdownSignal], and the summary printed at the end says
    the processing was complete. *)
Theorem interrupt_is_never_acted_on
    (exe_ok open_ok : bool) (rd : Bufio.readOutcome) (d : disk)
    (osArgs : list string) (s0 : state) (tr : list event) (s : state) :
  (N.of_nat (length osArgs) < 2 ^ 64)%N →
  main exe_ok open_ok rd d osArgs = Launched s0 →
  exec tr s0 = Some s →
  (mainAt s = MainCollect → ctxCancelled s = false)
  ∧ interrupted s = false
  ∧ (∀ sig s', step (EvSignal sig) s = Some s' →
       ctxCancelled s' = ctxCancelled s ∧ interrupted s' = interrupted s
       ∧ goroutines s' = goroutines s ∧ remaining s' = remaining s)
  ∧ (∀ code, mainAt s = MainExited code →
       ∃ report, summary s = Some report ∧ sumInterrupted report = false).
Proof.
  intros Hb Hmain Hexec.
  destruct (main_invariants _ _ _ _ _ _ _ _ Hb Hmain Hexec) as [Hinv _].
  split_and!.
  - intros Hc. by destruct (inv_collect _ _ Hinv Hc).
  - apply (inv_interrupted _ _ Hinv).
  - intros sig s' Hstep. pose proof (step_signal_remaining _ _ _ Hstep).
    unfold step in Hstep. destruct (mainAt s); [|done].
    by inversion Hstep; subst s'.
  - intros code Hexit.
    destruct (inv_exited _ _ Hinv code Hexit) as (_ & _ & _ & Hsum).
    eexists. split; [exact Hsum|done].
Qed.

Lemma interrupt_is_never_acted_on_witness :
  let s0 := launch ∅ sample_loaded ["a"] in
  let tr := [EvJob 0 sample_ok; EvJob 0 sample_ok; EvSignal SIGINT] in
  let s :=
    State {[ "a" ]} ∅ sample_loaded ["a"]
      [Goroutine PcRun (ProcessingResult "a" 1 None None)]
      [] false 1 (Counters 0 0 0) [] 1 [SIGINT] false false None MainCollect in
  (N.of_nat (length ["a"]) < 2 ^ 64)%N
  ∧ main true true Bufio.ReadAll sample_disk ["a"] = Launched s0
  ∧ exec tr s0 = Some s
  ∧ (mainAt s = MainCollect → ctxCancelled s = false)
  ∧ interrupted s = false.
Proof.
  assert (exec [EvJob 0 sample_ok; EvJob 0 sample_ok; EvSignal SIGINT]
            (launch ∅ sample_loaded ["a"])
          = Some (State {[ "a" ]} ∅ sample_loaded ["a"]
                    [Goroutine PcRun (ProcessingResult "a" 1 None None)]
                    [] false 1 (Counters 0 0 0) [] 1 [SIGINT] false false
                    None MainCollect)) as Hexec
    by (vm_compute; reflexivity).
  pose proof (interrupt_is_never_acted_on true true Bufio.ReadAll sample_disk
                ["a"] (launch ∅ sample_loaded ["a"]) _ _
                eq_refl eq_refl Hexec)
    as (H1 & H2 & _).
  split_and!; [reflexivity|reflexivity|exact Hexec|exact H1|exact H2].
Defined.

(** SIGINT arrives while yt-dlp runs for the only job: yt-dlp is left
    to finish, the job is counted as processed, and the summary does
    not say the run was interrupted. *)
Lemma sigint_while_running_is_ignored :
  (λ s, (g_pc <$> goroutines s, ctxCancelled s, interrupted s,
         shutdownSignal s))
    <$> exec [EvJob 0 sample_ok; EvJob 0 sample_ok; EvSignal SIGINT]
          (launch ∅ sample_loaded ["a"])
  = Some ([PcRun], false, false, [SIGINT])
  ∧ observe <$> exec sample_interrupted (launch ∅ sample_loaded ["a"])
    = Some ([Succeeded], ["a"], Counters 1 0 0,
            Some (SummaryReport false 1 1 0 0), MainExited 0).
Proof. split; vm_compute; reflexivity. Qed.

(** ** The pending tracker *)

Lemma identsOf_elem f (l : list goroutine) x :
  x ∈ identsOf f l ↔ ∃ i g, l !! i = Some g ∧ f g = true ∧ ident g = x.
Proof.
  induction l as [|g l IH]; simpl.
  - split; [by intros ?%elem_of_nil|by intros (i & g & ? & _)].
  - assert (x ∈ identsOf f l
            ↔ ∃ i g', (g :: l) !! S i = Some g' ∧ f g' = true ∧ ident g' = x)
      as IH' by done.
    destruct (f g) eqn:Hf.
    + rewrite elem_of_cons, IH'. split.
      * intros [->|(i & g' & ?)]; [by exists 0, g|by exists (S i), g'].
      * intros ([|i] & g' & Hi & ? & ?); [left|right; by exists i, g'].
        by inversion Hi; subst.
    + rewrite IH'. split.
      * intros (i & g' & ?). by exists (S i), g'.
      * intros ([|i] & g' & Hi & ? & ?); [|by exists i, g'].
        inversion Hi; subst. congruence.
Qed.

(** With no identifier held twice, a held identifier names its holder. *)
Lemma holder_unique f (l : list goroutine) : ∀ i j gi gj,
  NoDup (identsOf f l) →
  l !! i = Some gi → l !! j = Some gj → f gi = true → f gj = true →
  ident gi = ident gj → i = j.
Proof.
  induction l as [|g l IH]; intros i j gi gj Hnd Hi Hj Hfi Hfj Heq; [done|].
  simpl in Hnd.
  assert (∀ k gk, l !! k = Some gk → f gk = true → ident gk ∈ identsOf f l)
    as Hin by (intros k gk ? ?; apply identsOf_elem; by exists k, gk).
  destruct i as [|i], j as [|j]; simpl in Hi, Hj; [done| | |].
  - inversion Hi; subst. rewrite Hfi in Hnd. apply NoDup_cons in Hnd as [Hn _].
    exfalso. apply Hn. rewrite Heq. by eapply Hin.
  - inversion Hj; subst. rewrite Hfj in Hnd. apply NoDup_cons in Hnd as [Hn _].
    exfalso. apply Hn. rewrite <- Heq. by eapply Hin.
  - f_equal. eapply IH; [|done..].
    destruct (f g); [by apply NoDup_cons in Hnd as [_ ?]|done].
Qed.

(** C10: in a run launched on any list of identifiers, duplicates
    included.  A goroutine whose [markPending] finds the identifier
    pending leaves the set as it is and goes straight to the send of
    its result; a rejected goroutine is never at the deferred
    [unmarkPending]; an identifier leaves the set only by the
    [unmarkPending] of the goroutine that holds it, which is the only
    holder; a held identifier is in the set; after the release the
    identifier is absent; and once [main] has returned the set is
    empty. *)
Theorem release_only_by_owner
    (m : gset string) (d : disk) (args : list string)
    (tr : list event) (s : state) :
  (N.of_nat (length args) < 2 ^ 64)%N →
  exec tr (launch m d args) = Some s →
  (∀ i g x s', goroutines s !! i = Some g → g_pc g = PcStart →
     ident g ∈ pending s → step (EvJob i x) s = Some s' →
     pending s' = pending s
     ∧ ∃ g', goroutines s' !! i = Some g' ∧ g_pc g' = PcSend
             ∧ outcome_of (g_result g') = SkippedDuplicate)
  ∧ (∀ i g, goroutines s !! i = Some g →
       outcome_of (g_result g) = SkippedDuplicate →
       g_pc g = PcSend ∨ g_pc g = PcWgDone ∨ g_pc g = PcExit)
  ∧ (∀ e s' y, step e s = Some s' → y ∈ pending s → y ∉ pending s' →
       ∃ i x g, e = EvJob i x ∧ goroutines s !! i = Some g
                ∧ g_pc g = PcUnmark ∧ ident g = y)
  ∧ (∀ i j gi gj, goroutines s !! i = Some gi → goroutines s !! j = Some gj →
       holds gi = true → holds gj = true → ident gi = ident gj → i = j)
  ∧ (∀ y, y ∈ pending s
          ↔ ∃ i g, goroutines s !! i = Some g ∧ holds g = true ∧ ident g = y)
  ∧ (∀ i g x s', goroutines s !! i = Some g → g_pc g = PcUnmark →
       step (EvJob i x) s = Some s' → ident g ∉ pending s')
  ∧ (∀ code, mainAt s = MainExited code → pending s = ∅).
Proof.
  intros Hb Hexec.
  pose proof (exec_run_inv args tr _ _ Hb (launch_run_inv m d args) Hexec)
    as Hinv.
  split_and!.
  - intros i [p r] x s' Hi Hpc Hin Hstep. simpl in Hpc. subst p.
    unfold step in Hstep. destruct (mainAt s); [|done].
    rewrite Hi in Hstep. unfold processVideo_step, markPending in Hstep.
    simpl in Hstep, Hin. unfold ident in Hin. simpl in Hin.
    destruct (decide (Identifier r ∈ pending s)); [|done].
    inversion Hstep; subst s'. simpl. split; [done|].
    eexists. split; [apply list_lookup_insert_eq; by eapply lookup_lt_Some|].
    split; [done|].
    pose proof (inv_results _ _ Hinv) as Hres.
    eapply Forall_lookup_1 in Hres; [|exact Hi].
    unfold result_ok in Hres. simpl in Hres.
    simpl. rewrite outcome_with_error by done. by case_decide.
  - intros i g Hi Hdup.
    pose proof (inv_results _ _ Hinv) as Hres.
    eapply Forall_lookup_1 in Hres; [|exact Hi].
    unfold result_ok in Hres.
    destruct (g_pc g); auto;
      try (rewrite (outcome_fresh _ Hres) in Hdup; discriminate).
    done.
  - intros e s' y Hstep Hin Hout.
    unfold step in Hstep. destruct (mainAt s); [|done].
    destruct e as [i x| | | |sig].
    + destruct (goroutines s !! i) as [[p r]|] eqn:Hi; [|done].
      unfold processVideo_step in Hstep. simpl in Hstep.
      destruct p; simpl in Hstep;
        repeat match type of Hstep with
          | context [markPending ?a ?b] => unfold markPending in Hstep
          | context [decide ?P] => destruct (decide P)
          | context [ctxCancelled s] => destruct (ctxCancelled s)
          | context [cmdErr x] => destruct (cmdErr x)
          | context [appendToArchive ?a ?b ?c ?d] =>
              destruct (appendToArchive a b c d) as [[? ?] ?]
          | context [resultsClosed s] => destruct (resultsClosed s)
          | context [length (results s) <? totalItems s] =>
              destruct (length (results s) <? totalItems s)
          | context [wg s] => destruct (wg s)
          end; try done;
        inversion Hstep; subst s'; simpl in Hout; try done.
      * exfalso. apply Hout. set_solver.
      * exists i, x, (Goroutine PcUnmark r). split_and!; try done.
        unfold unmarkPending in Hout. unfold ident. simpl.
        destruct (decide (Identifier r = y)); [done|]. set_solver.
    + destruct (resultsClosed s); [done|]. destruct (wg s); [|done].
      by inversion Hstep; subst s'.
    + destruct (results s); [done|]. by inversion Hstep; subst s'.
    + destruct (results s); [|done]. destruct (resultsClosed s); [|done].
      by inversion Hstep; subst s'.
    + by inversion Hstep; subst s'.
  - intros i j gi gj. apply holder_unique, (inv_owner _ _ Hinv).
  - intros y. rewrite (inv_pending _ _ Hinv). apply identsOf_elem.
  - intros i [p r] x s' Hi Hpc Hstep. simpl in Hpc. subst p.
    unfold step in Hstep. destruct (mainAt s); [|done].
    rewrite Hi in Hstep. unfold processVideo_step in Hstep. simpl in Hstep.
    inversion Hstep; subst s'. simpl. unfold unmarkPending, ident. simpl.
    set_solver.
  - intros code Hexit.
    destruct (inv_exited _ _ Hinv code Hexit) as (_ & Hc & _).
    pose proof (inv_wg _ _ Hinv) as Hwg.
    rewrite (inv_closed _ _ Hinv Hc) in Hwg. symmetry in Hwg.
    apply tally_none in Hwg.
    assert (identsOf holds (goroutines s) = []) as Hnone.
    { apply identsOf_none. eapply Forall_impl; [exact Hwg|].
      intros g. unfold alive, holds. by destruct (g_pc g). }
    apply set_eq. intros y. rewrite (inv_pending _ _ Hinv), Hnone.
    set_solver.
Qed.

Lemma release_only_by_owner_witness :
  let s :=
    State {[ "a" ]} ∅ sample_loaded ["a"]
      [Goroutine PcRun (ProcessingResult "a" 1 None None);
       Goroutine PcSend
         (ProcessingResult "a" 2 (Some "duplicate in progress") None)]
      [] false 2 (Counters 0 0 0) [] 2 [] false false None MainCollect in
  (N.of_nat (length ["a"; "a"]) < 2 ^ 64)%N
  ∧ exec sample_rejection (launch ∅ sample_loaded ["a"; "a"]) = Some s
  ∧ (∀ i g, goroutines s !! i = Some g →
       outcome_of (g_result g) = SkippedDuplicate →
       g_pc g = PcSend ∨ g_pc g = PcWgDone ∨ g_pc g = PcExit)
  ∧ (∀ y, y ∈ pending s
          ↔ ∃ i g, goroutines s !! i = Some g ∧ holds g = true ∧ ident g = y).
Proof.
  assert (exec sample_rejection (launch ∅ sample_loaded ["a"; "a"])
          = Some (State {[ "a" ]} ∅ sample_loaded ["a"]
                    [Goroutine PcRun (ProcessingResult "a" 1 None None);
                     Goroutine PcSend
                       (ProcessingResult "a" 2
                          (Some "duplicate in progress") None)]
                    [] false 2 (Counters 0 0 0) [] 2 [] false false None
                    MainCollect)) as Hexec
    by (vm_compute; reflexivity).
  pose proof (release_only_by_owner ∅ sample_loaded ["a"; "a"] _ _
                eq_refl Hexec)
    as (_ & H2 & _ & _ & H5 & _).
  split_and!; [reflexivity|exact Hexec|exact H2|exact H5].
Defined.

(** Two goroutines for one identifier: the second is rejected while
    the first runs yt-dlp; the identifier stays pending, held by the
    first. *)
Lemma rejected_goroutine_leaves_pending :
  (λ s, (g_pc <$> goroutines s, outcome_of ∘ g_result <$> goroutines s,
         elements (pending s)))
    <$> exec sample_rejection (launch ∅ sample_loaded ["a"; "a"])
  = Some ([PcRun; PcSend], [Succeeded; SkippedDuplicate], ["a"]).
Proof. vm_compute. reflexivity. Qed.

(** ** Repeated identifiers *)

(** C5, as the code has it: an identifier supplied any number of times
    gets exactly one goroutine, because [deduplicateArgs] runs before
    the launch.  No goroutine is ever rejected by [markPending] (no
    result is Skipped-Duplicate), yt-dlp is started at most once per
    identifier, and in a finished run it was started for the
    identifier exactly when the ledger as loaded did not hold it; the
    job is Skipped-Already-Done when it did. *)
Theorem duplicates_collapse_before_launch
    (exe_ok open_ok : bool) (rd : Bufio.readOutcome) (d : disk)
    (osArgs : list string) (s0 : state) (x : string)
    (tr : list event) (s : state) :
  (N.of_nat (length osArgs) < 2 ^ 64)%N →
  main exe_ok open_ok rd d osArgs = Launched s0 →
  x ∈ osArgs →
  exec tr s0 = Some s →
  (∃ i, ∀ j, (ident <$> goroutines s) !! j = Some x ↔ j = i)
  ∧ Forall (λ g, outcome_of (g_result g) ≠ SkippedDuplicate) (goroutines s)
  ∧ Forall (λ r, outcome_of r ≠ SkippedDuplicate) (results s)
  ∧ NoDup (spawned s)
  ∧ (∀ code, mainAt s = MainExited code →
       (x ∈ spawned s ↔ x ∉ processedArchive s0)
       ∧ ∀ g, g ∈ goroutines s → ident g = x →
           (outcome_of (g_result g) = SkippedAlreadyDone
            ↔ x ∈ processedArchive s0)).
Proof.
  intros Hb Hmain Hx Hexec.
  destruct (main_invariants _ _ _ _ _ _ _ _ Hb Hmain Hexec) as [Hinv Hd].
  pose proof (deduplicateArgs_NoDup osArgs) as Hnd.
  pose proof (inv_ids _ _ Hinv) as Hids.
  pose proof (dinv_goroutines _ _ Hd) as Hgs.
  assert (∀ code, mainAt s = MainExited code →
            Forall (λ g, g_pc g = PcExit) (goroutines s)) as Hdone.
  { intros code Hexit.
    destruct (inv_exited _ _ Hinv code Hexit) as (_ & Hc & _).
    pose proof (inv_wg _ _ Hinv) as Hwg.
    rewrite (inv_closed _ _ Hinv Hc) in Hwg. symmetry in Hwg.
    apply tally_none in Hwg. eapply Forall_impl; [exact Hwg|].
    intros g. unfold alive. by destruct (g_pc g). }
  assert (∀ code g, mainAt s = MainExited code → g ∈ goroutines s →
            (started g = true ↔ ident g ∉ processedArchive s0)
            ∧ (outcome_of (g_result g) = SkippedAlreadyDone
               ↔ ident g ∈ processedArchive s0)) as Hend.
  { intros code g Hexit Hg.
    specialize (Hdone code Hexit).
    eapply Forall_forall in Hdone; [|exact Hg].
    eapply Forall_forall in Hgs; [|exact Hg].
    destruct Hgs as (_ & Hdup & Hskip & Hstart).
    unfold started in *. rewrite Hdone in *.
    destruct (outcome_of (g_result g)); naive_solver. }
  split_and!.
  - apply deduplicateArgs_elem, list_elem_of_lookup in Hx as [i Hi].
    exists i. intros j. rewrite Hids. split; [|by intros ->].
    intros Hj. by eapply NoDup_lookup.
  - eapply Forall_impl; [exact Hgs|]. by intros g (_ & ? & _).
  - apply (dinv_sent _ _ Hd).
  - apply (dinv_spawned_once _ _ Hd).
  - intros code Hexit. split.
    + rewrite (dinv_spawned _ _ Hd), identsOf_elem. split.
      * intros (i & g & Hi & Hs & <-).
        apply (Hend code g Hexit); [by eapply list_elem_of_lookup_2|done].
      * intros Hout.
        apply deduplicateArgs_elem in Hx. rewrite <- Hids in Hx.
        apply list_elem_of_fmap in Hx as (g & -> & Hg).
        pose proof Hg as Hg'. apply list_elem_of_lookup in Hg' as [i Hi].
        exists i, g. split_and!; [done| |done].
        by apply (Hend code g Hexit).
    + intros g Hg <-. by apply (Hend code g Hexit).
Qed.

Lemma duplicates_collapse_before_launch_witness :
  let s0 := launch ∅ sample_loaded ["a"] in
  (N.of_nat (length ["a"; "a"]) < 2 ^ 64)%N
  ∧ main true true Bufio.ReadAll sample_disk ["a"; "a"] = Launched s0
  ∧ "a" ∈ ["a"; "a"]
  ∧ exec [EvJob 0 sample_ok] s0
    = Some (set_goroutine 0
              (Goroutine PcCheck (ProcessingResult "a" 1 None None))
              (set_pending {[ "a" ]} s0))
  ∧ (∃ i, ∀ j, (ident <$> goroutines s0) !! j = Some "a" ↔ j = i)
  ∧ NoDup (spawned s0).
Proof.
  assert (exec [EvJob 0 sample_ok] (launch ∅ sample_loaded ["a"])
          = Some (set_goroutine 0
                    (Goroutine PcCheck (ProcessingResult "a" 1 None None))
                    (set_pending {[ "a" ]} (launch ∅ sample_loaded ["a"]))))
    as Hexec by (vm_compute; reflexivity).
  pose proof (duplicates_collapse_before_launch true true Bufio.ReadAll
                sample_disk ["a"; "a"] (launch ∅ sample_loaded ["a"]) "a" _ _
                eq_refl eq_refl ltac:(apply list_elem_of_here) Hexec)
    as (H1 & _ & _ & H4 & _).
  split_and!;
    [reflexivity|reflexivity|apply list_elem_of_here|exact Hexec|exact H1
    |exact H4].
Defined.

(** The claim of C5 fails: with the identifier supplied twice, one
    goroutine is launched, not two; it runs yt-dlp and succeeds, and
    no job is Skipped-Duplicate. *)
Lemma duplicate_input_launches_one_job :
  main true true Bufio.ReadAll sample_disk ["a"; "a"]
  = Launched (launch ∅ sample_loaded ["a"])
  ∧ length (goroutines (launch ∅ sample_loaded ["a"])) = 1
  ∧ observe <$> exec (sample_schedule 7 sample_ok)
                  (launch ∅ sample_loaded ["a"])
    = Some ([Succeeded], ["a"], Counters 1 0 0,
            Some (SummaryReport false 1 1 0 0), MainExited 0).
Proof. split_and!; vm_compute; reflexivity. Qed.

(** ** Append of a present identifier *)

(** C2, as the code has it: [appendToArchive] does not look the
    identifier up.  For an identifier already in the in-memory set, an
    append whose open and write go through returns no error and leaves
    the set as it is, and it writes the identifier as one more line at
    the end of the store.  In a run the case does not arise: a
    goroutine about to append has an identifier that is not in the
    set. *)
Theorem append_has_no_noop_path
    (identifier : string) (m : gset string) (d : disk) :
  identifier ∈ m →
  appendToArchive AppendOk identifier m d
  = (m,
     Disk (Some (createIfAbsent (store d) +:+ Fprintln_bytes identifier))
          (fslog d ++ [FsOpenAppend true; FsWrite (Fprintln_bytes identifier)]),
     None)
  ∧ (∀ exe_ok open_ok rd d0 osArgs s0 tr s i g,
       (N.of_nat (length osArgs) < 2 ^ 64)%N →
       main exe_ok open_ok rd d0 osArgs = Launched s0 →
       exec tr s0 = Some s →
       goroutines s !! i = Some g → g_pc g = PcAppend →
       ident g ∉ processedArchive s).
Proof.
  intros Hin. split.
  - simpl. do 2 f_equal. set_solver.
  - intros exe_ok open_ok rd d0 osArgs s0 tr s i g Hb Hmain Hexec Hi Hpc.
    destruct (main_invariants _ _ _ _ _ _ _ _ Hb Hmain Hexec) as [_ Hd].
    pose proof (dinv_goroutines _ _ Hd) as Hgs.
    eapply Forall_lookup_1 in Hgs; [|exact Hi].
    destruct Hgs as (Hok & _). rewrite Hpc in Hok. by destruct Hok.
Qed.

Lemma append_has_no_noop_path_witness :
  "a" ∈ ({[ "a" ]} : gset string)
  ∧ appendToArchive AppendOk "a" {[ "a" ]}
      (Disk (Some (Fprintln_bytes "a")) [])
  = ({[ "a" ]},
     Disk (Some (createIfAbsent (Some (Fprintln_bytes "a"))
                 +:+ Fprintln_bytes "a"))
          ([] ++ [FsOpenAppend true; FsWrite (Fprintln_bytes "a")]),
     None).
Proof.
  split; [apply elem_of_singleton; reflexivity|].
  apply (append_has_no_noop_path "a" {[ "a" ]}
           (Disk (Some (Fprintln_bytes "a")) [])).
  apply elem_of_singleton. reflexivity.
Defined.

(** The claim of C2 fails: the identifier is in the set and on the
    first line of the file; the append opens the file and writes the
    line a second time. *)
Lemma append_of_present_identifier_writes :
  "a" ∈ ({[ "a" ]} : gset string)
  ∧ appendToArchive AppendOk "a" {[ "a" ]}
      (Disk (Some (Fprintln_bytes "a")) [])
    = ({[ "a" ]},
       Disk (Some (Fprintln_bytes "a" +:+ Fprintln_bytes "a"))
            [FsOpenAppend true; FsWrite (Fprintln_bytes "a")],
       None).
Proof. split; [by apply elem_of_singleton|]. vm_compute. reflexivity. Qed.

(** ** Failed append *)

(** C6: on every error path of [appendToArchive] (the open fails, the
    write fails) the in-memory set is returned as it was, so an
    identifier that was absent stays absent.  In a run, after a
    goroutine's append has failed the in-memory ledger is what it was,
    the identifier of the goroutine is not in it, and the job is
    Succeeded-With-Ledger-Error. *)
Theorem appendToArchive_error_keeps_memory
    (io : appendIO) (identifier : string) (m : gset string) (d : disk) :
  io ≠ AppendOk →
  (∃ d' e, appendToArchive io identifier m d = (m, d', Some e))
  ∧ (identifier ∉ m → identifier ∉ (appendToArchive io identifier m d).1.1)
  ∧ (∀ exe_ok open_ok rd d0 osArgs s0 tr s i g x s',
       (N.of_nat (length osArgs) < 2 ^ 64)%N →
       main exe_ok open_ok rd d0 osArgs = Launched s0 →
       exec tr s0 = Some s →
       goroutines s !! i = Some g → g_pc g = PcAppend → appendFate x = io →
       step (EvJob i x) s = Some s' →
       processedArchive s' = processedArchive s
       ∧ (ident g ∉ processedArchive s')
       ∧ ∃ g', goroutines s' !! i = Some g'
               ∧ outcome_of (g_result g') = SucceededWithLedgerError).
Proof.
  intros Hio.
  assert (∃ d' e, appendToArchive io identifier m d = (m, d', Some e)) as Herr
    by (destruct io as [|n|]; [| |done]; simpl; eauto).
  split_and!; [done| |].
  - destruct Herr as (d' & e & ->). done.
  - intros exe_ok open_ok rd d0 osArgs s0 tr s i [p r] x s'
      Hb Hmain Hexec Hi Hpc Hx Hstep.
    simpl in Hpc. subst p.
    destruct (main_invariants _ _ _ _ _ _ _ _ Hb Hmain Hexec) as [_ Hd].
    pose proof (dinv_goroutines _ _ Hd) as Hgs.
    eapply Forall_lookup_1 in Hgs; [|exact Hi].
    destruct Hgs as ([Hfresh Hout] & _).
    unfold step in Hstep. destruct (mainAt s); [|done].
    rewrite Hi in Hstep. unfold processVideo_step in Hstep. simpl in Hstep.
    rewrite Hx in Hstep.
    destruct (appendToArchive io (Identifier r) (processedArchive s)
                (archive s)) as [[m1 d1] err] eqn:Happ.
    assert (m1 = processedArchive s ∧ ∃ e, err = Some e) as [-> [e ->]].
    { clear -Hio Happ. destruct io as [|n|]; [| |done]; simpl in Happ;
        inversion Happ; subst; eauto. }
    inversion Hstep; subst s'. simpl. split_and!; [done..|].
    eexists. split; [apply list_lookup_insert_eq; by eapply lookup_lt_Some|].
    simpl. by rewrite outcome_with_archiveErr.
Qed.

Lemma appendToArchive_error_keeps_memory_witness :
  AppendWriteFails 1 ≠ AppendOk
  ∧ (∃ d' e,
       appendToArchive (AppendWriteFails 1) "a" ∅ (Disk None [])
       = (∅, d', Some e))
  ∧ ("a" ∉ (∅ : gset string) →
     "a" ∉ (appendToArchive (AppendWriteFails 1) "a" ∅ (Disk None [])).1.1).
Proof.
  assert (AppendWriteFails 1 ≠ AppendOk) as Hio by discriminate.
  split; [exact Hio|].
  pose proof (appendToArchive_error_keeps_memory (AppendWriteFails 1) "a" ∅
                (Disk None []) Hio) as (H1 & H2 & _).
  exact (conj H1 H2).
Defined.

(* ===================================================================== *)
(** * Part III: further properties *)
(* ===================================================================== *)

#[local] Arguments String.append : simpl nomatch.

(** ** Byte strings *)

Section Strings.

Implicit Types (s t p q : string) (c : ascii).

Lemma append_nil_r s : s +:+ EmptyString = s.
Proof. induction s as [|c s IH]; simpl; [done|]. by rewrite IH. Qed.

Lemma append_assoc s t q : (s +:+ t) +:+ q = s +:+ (t +:+ q).
Proof. induction s as [|c s IH]; simpl; [done|]. by rewrite IH. Qed.

Lemma length_append s t :
  String.length (s +:+ t) = String.length s + String.length t.
Proof. induction s as [|c s IH]; simpl; [done|]. by rewrite IH. Qed.

Lemma rev_app_rev_app s : ∀ t q,
  String.rev_app (String.rev_app s t) q = String.rev_app t (s +:+ q).
Proof. induction s as [|c s IH]; intros t q; simpl; [done|]. by rewrite IH. Qed.

Lemma rev_involutive s : String.rev (String.rev s) = s.
Proof.
  unfold String.rev. rewrite rev_app_rev_app. simpl. apply append_nil_r.
Qed.

Lemma rev_app_append s : ∀ t, String.rev_app s t = String.rev s +:+ t.
Proof.
  unfold String.rev. induction s as [|c s IH]; intros t; simpl; [done|].
  rewrite (IH (String c t)), (IH (String c EmptyString)).
  by rewrite append_assoc.
Qed.

Lemma rev_append s t : String.rev (s +:+ t) = String.rev t +:+ String.rev s.
Proof.
  induction s as [|c s IH]; simpl.
  - by rewrite append_nil_r.
  - unfold String.rev. simpl.
    rewrite (rev_app_append (s +:+ t)), (rev_app_append s).
    fold (String.rev (s +:+ t)). fold (String.rev s). rewrite IH.
    by rewrite append_assoc.
Qed.

Lemma rev_cons c s : String.rev (String c s) = String.rev s +:+ String c EmptyString.
Proof. unfold String.rev. simpl. apply rev_app_append. Qed.

Lemma length_rev s : String.length (String.rev s) = String.length s.
Proof.
  induction s as [|c s IH]; [done|].
  rewrite rev_cons, length_append, IH. simpl. lia.
Qed.

Lemma rev_inj s t : String.rev s = String.rev t → s = t.
Proof. intros H. by rewrite <- (rev_involutive s), H, rev_involutive. Qed.

Lemma hasByte_append c s t :
  hasByte c (s +:+ t) = hasByte c s || hasByte c t.
Proof.
  induction s as [|a s IH]; simpl; [done|]. by destruct (decide (a = c)).
Qed.

Lemma hasByte_rev c s : hasByte c (String.rev s) = hasByte c s.
Proof.
  induction s as [|a s IH]; [done|].
  rewrite rev_cons, hasByte_append, IH. simpl.
  destruct (decide (a = c)); simpl; [apply orb_true_r|apply orb_false_r].
Qed.

Lemma hasPrefix_append p s t :
  GoStrings.hasPrefix p s = true → GoStrings.hasPrefix p (s +:+ t) = true.
Proof.
  revert s. induction p as [|a p IH]; intros s; [done|].
  destruct s as [|b s]; simpl; [done|].
  destruct (decide (a = b)); [apply IH|done].
Qed.

Lemma hasPrefix_nil_inv p : GoStrings.hasPrefix p EmptyString = true → p = EmptyString.
Proof. by destruct p. Qed.

End Strings.

(** ** White space at the ends *)

Section Trim.

Import GoStrings.
Implicit Types (pats : list string) (s t : string).

Lemma spaceWidth_prefix pats s t :
  spaceWidth pats (s +:+ t) = 0 → spaceWidth pats s = 0.
Proof.
  destruct s as [|c s]; [by destruct pats|].
  induction pats as [|p pats IH]; simpl.
  - by destruct (asciiSpace c).
  - destruct (asciiSpace c) eqn:Hc; [done|].
    destruct (hasPrefix p (String c s)) eqn:Hp.
    + pose proof (hasPrefix_append p (String c s) t Hp) as Hp'.
      simpl in Hp'. by rewrite Hp'.
    + destruct (hasPrefix p (String c (s +:+ t))) eqn:Hp'.
      * intros Hlen. destruct p; [done|discriminate].
      * intros H. by apply IH.
Qed.

Lemma trimLeading_suffix pats s : ∀ skip,
  ∃ p, s = p +:+ trimLeading pats skip s.
Proof.
  induction s as [|c s IH]; intros skip; simpl; [by exists EmptyString|].
  destruct skip as [|k].
  - destruct (spaceWidth pats (String c s)) as [|k] eqn:Hw.
    + by exists EmptyString.
    + destruct (IH k) as [p Hp]. exists (String c p). simpl. by rewrite <- Hp.
  - destruct (IH k) as [p Hp]. exists (String c p). simpl. by rewrite <- Hp.
Qed.

Lemma trimLeading_head pats s : ∀ skip,
  spaceWidth pats (trimLeading pats skip s) = 0.
Proof.
  induction s as [|c s IH]; intros skip; [by destruct pats|].
  cbn [trimLeading]. destruct skip as [|k]; [|apply IH].
  destruct (spaceWidth pats (String c s)) as [|k] eqn:Hw; [done|apply IH].
Qed.

Lemma trimLeading_fixed pats s :
  spaceWidth pats s = 0 → trimLeading pats 0 s = s.
Proof. destruct s as [|c s]; [done|]. cbn [trimLeading]. by intros ->. Qed.

Lemma TrimSpace_noSpaceAtEnds s : noSpaceAtEnds (TrimSpace s).
Proof.
  unfold noSpaceAtEnds, TrimSpace, TrimRight, TrimLeft.
  set (left := map of_bytes unicodeSpaces).
  set (right := map (λ l, of_bytes (rev l)) unicodeSpaces).
  set (y := trimLeading left 0 s).
  split.
  - destruct (trimLeading_suffix right (String.rev y) 0) as [p Hp].
    apply (spaceWidth_prefix left _ (String.rev p)).
    rewrite <- rev_append, <- Hp, rev_involutive. apply trimLeading_head.
  - rewrite rev_involutive. apply trimLeading_head.
Qed.

Lemma TrimSpace_fixed s : noSpaceAtEnds s → TrimSpace s = s.
Proof.
  intros [Hl Hr]. unfold TrimSpace, TrimRight, TrimLeft.
  rewrite (trimLeading_fixed _ s Hl), (trimLeading_fixed _ _ Hr).
  apply rev_involutive.
Qed.

Lemma TrimSpace_idempotent s : TrimSpace (TrimSpace s) = TrimSpace s.
Proof. apply TrimSpace_fixed, TrimSpace_noSpaceAtEnds. Qed.

Lemma TrimSpace_fixed_iff s : TrimSpace s = s ↔ noSpaceAtEnds s.
Proof.
  split; [|apply TrimSpace_fixed].
  intros <-. apply TrimSpace_noSpaceAtEnds.
Qed.

(** What [TrimSpace] returns is a piece of its argument. *)
Lemma TrimSpace_piece s : ∃ p q, s = p +:+ TrimSpace s +:+ q.
Proof.
  unfold TrimSpace, TrimRight, TrimLeft.
  set (left := map of_bytes unicodeSpaces).
  set (right := map (λ l, of_bytes (rev l)) unicodeSpaces).
  destruct (trimLeading_suffix left s 0) as [p Hp].
  set (y := trimLeading left 0 s) in *.
  destruct (trimLeading_suffix right (String.rev y) 0) as [q Hq].
  exists p, (String.rev q).
  rewrite <- rev_append, <- Hq, rev_involutive. exact Hp.
Qed.

Lemma TrimSpace_hasByte c s :
  hasByte c (TrimSpace s) = true → hasByte c s = true.
Proof.
  destruct (TrimSpace_piece s) as (p & q & Hs). intros Hc.
  rewrite Hs, !hasByte_append, Hc. by rewrite orb_true_r.
Qed.

Lemma spaceWidth_ascii pats c s :
  asciiSpace c = true → spaceWidth pats (String c s) = 1.
Proof. intros Hc. destruct pats; simpl; by rewrite Hc. Qed.

End Trim.

(** ** The lines of the store *)

Section Lines.

Import Bufio.
Implicit Types (cur data l : string).

Lemma rawLines_no_newline data : ∀ cur,
  hasByte newline cur = false →
  Forall (λ l, hasByte newline l = false) (rawLines cur data).
Proof.
  induction data as [|c data IH]; intros cur Hcur; simpl.
  - destruct cur; [constructor|]. constructor; [|constructor].
    by rewrite hasByte_rev.
  - destruct (decide (c = newline)) as [->|Hc].
    + constructor; [by rewrite hasByte_rev|]. by apply IH.
    + apply IH. simpl. by destruct (decide (c = newline)).
Qed.

(** [dropCR] keeps a line or cuts its last byte, a carriage return. *)
Lemma dropCR_cases l :
  dropCR l = l ∨ l = dropCR l +:+ String cr EmptyString.
Proof.
  unfold dropCR. destruct (String.rev l) as [|c r] eqn:Hrev; [by left|].
  destruct (decide (c = cr)) as [->|]; [right|by left].
  rewrite <- (rev_involutive l), Hrev. apply rev_cons.
Qed.

Lemma dropCR_hasByte c l : hasByte c (dropCR l) = true → hasByte c l = true.
Proof.
  destruct (dropCR_cases l) as [->|Hl]; [done|]. intros Hc.
  rewrite Hl, hasByte_append, Hc. done.
Qed.

Lemma lines_no_newline data :
  Forall (λ l, hasByte newline l = false) (lines data).
Proof.
  unfold lines. apply Forall_fmap.
  eapply Forall_impl; [by apply (rawLines_no_newline data EmptyString)|].
  intros l Hl. simpl. destruct (hasByte newline (dropCR l)) eqn:Hd; [|done].
  apply dropCR_hasByte in Hd. congruence.
Qed.

Lemma tokens_elem raw final t :
  t ∈ (tokens raw final).1 → ∃ l, l ∈ raw ∧ t = dropCR l.
Proof.
  induction raw as [|l raw IH]; simpl; [by intros ?%elem_of_nil|].
  destruct (MaxScanTokenSize <=? _)%N; [by intros ?%elem_of_nil|].
  destruct (tokens raw final) as [ts e]. simpl in *.
  intros [->|Hin]%elem_of_cons.
  - exists l. split; [by left|done].
  - destruct (IH Hin) as (l' & ? & ?). exists l'. split; [by right|done].
Qed.

Lemma scan_no_newline rd data t :
  t ∈ (scan rd data).1 → hasByte newline t = false.
Proof.
  intros Hin.
  assert (∃ bytes, t ∈ (tokens (rawLines EmptyString bytes)
                          (match rd with ReadAll => None
                                       | ReadFails _ => Some ErrRead end)).1)
    as [bytes Ht] by (destruct rd; eauto).
  apply tokens_elem in Ht as (l & Hl & ->).
  pose proof (rawLines_no_newline bytes EmptyString eq_refl) as Hall.
  eapply Forall_forall in Hall; [|exact Hl].
  destruct (hasByte newline (dropCR l)) eqn:Hd; [|done].
  apply dropCR_hasByte in Hd. congruence.
Qed.

(** A string that ends a line: nothing is left over when it is read. *)
Lemma rawLines_append_line a b : ∀ cur,
  rawLines cur (a +:+ String newline b)
  = rawLines cur (a +:+ String newline EmptyString) ++ rawLines EmptyString b.
Proof.
  induction a as [|c a IH]; intros cur; simpl.
  - by destruct (decide (newline = newline)).
  - destruct (decide (c = newline)); [|apply IH].
    simpl. f_equal. apply IH.
Qed.

Lemma rawLines_one_line a : ∀ cur,
  hasByte newline a = false →
  rawLines cur (a +:+ String newline EmptyString)
  = [String.rev cur +:+ a].
Proof.
  induction a as [|c a IH]; intros cur Ha; simpl.
  - destruct (decide (newline = newline)); [|done]. by rewrite append_nil_r.
  - simpl in Ha. destruct (decide (c = newline)); [done|].
    rewrite IH by done. f_equal. rewrite rev_cons, append_assoc. done.
Qed.

End Lines.

Lemma fold_initArchive_line_app (l1 l2 : list string) (m : gset string) :
  fold_left initArchive_line (l1 ++ l2) m
  = fold_left initArchive_line l2 (fold_left initArchive_line l1 m).
Proof. apply fold_left_app. Qed.

Lemma initArchive_lines_union (ls : list string) : ∀ m : gset string,
  fold_left initArchive_line ls m = fold_left initArchive_line ls ∅ ∪ m.
Proof.
  induction ls as [|l ls IH]; intros m; simpl.
  - set_solver.
  - rewrite (IH (initArchive_line m l)), (IH (initArchive_line ∅ l)).
    unfold initArchive_line. case_decide; set_solver.
Qed.

(** X1: whatever the store holds and however the read ends, every
    identifier [initArchive] puts in the ledger is non-empty, is its
    own [TrimSpace] (no white space at either end) and has no newline
    in it. *)
Theorem initArchive_entries_normalized
    (open_ok : bool) (rd : Bufio.readOutcome) (d : disk) (id : string) :
  id ∈ (initArchive open_ok rd d).1.1 →
  id ≠ EmptyString
  ∧ GoStrings.TrimSpace id = id
  ∧ hasByte Bufio.newline id = false.
Proof.
  unfold initArchive. destruct open_ok; simpl; [|by intros ?%elem_of_empty].
  destruct (Bufio.scan rd (createIfAbsent (store d))) as [ls serr] eqn:Hscan.
  assert (id ∈ fold_left initArchive_line ls ∅ →
          id ≠ EmptyString
          ∧ ∃ l, l ∈ ls ∧ GoStrings.TrimSpace l = id) as Hfold.
  { rewrite initArchive_lines_elem. intros [?%elem_of_empty|?]; done. }
  intros Hin.
  assert (id ∈ fold_left initArchive_line ls ∅) as Hin'
    by (by destruct serr).
  destruct (Hfold Hin') as (Hne & l & Hl & <-).
  split_and!; [done|apply TrimSpace_idempotent|].
  destruct (hasByte Bufio.newline (GoStrings.TrimSpace l)) eqn:Hb; [|done].
  apply TrimSpace_hasByte in Hb.
  assert (l ∈ (Bufio.scan rd (createIfAbsent (store d))).1) as Hl'
    by (by rewrite Hscan).
  apply scan_no_newline in Hl'. congruence.
Qed.

Lemma initArchive_entries_normalized_witness :
  "a" ∈ (initArchive true Bufio.ReadAll
           (Disk (Some (GoStrings.of_bytes [32; 97; 13; 10])) [])).1.1
  ∧ "a" ≠ EmptyString
  ∧ GoStrings.TrimSpace "a" = "a"
  ∧ hasByte Bufio.newline "a" = false.
Proof.
  assert ("a" ∈ (initArchive true Bufio.ReadAll
                   (Disk (Some (GoStrings.of_bytes [32; 97; 13; 10])) [])).1.1)
    as Hin by (vm_compute; reflexivity).
  split; [exact Hin|].
  exact (initArchive_entries_normalized true Bufio.ReadAll _ "a" Hin).
Defined.

(** A storable identifier is the only line of what [Fprintln] writes. *)
Lemma storable_line identifier :
  storable identifier →
  Bufio.rawLines EmptyString (Fprintln_bytes identifier) = [identifier]
  ∧ Bufio.dropCR identifier = identifier.
Proof.
  intros (Hne & Htrim & Hnl & Hfit). split.
  - unfold Fprintln_bytes. by rewrite rawLines_one_line.
  - apply TrimSpace_fixed_iff in Htrim as [_ Hr].
    unfold Bufio.dropCR.
    destruct (String.rev identifier) as [|c r] eqn:Hrev; [done|].
    destruct (decide (c = Bufio.cr)) as [->|]; [|done].
    by rewrite (spaceWidth_ascii _ Bufio.cr r eq_refl) in Hr.
Qed.

Lemma wholeLines_append bytes line :
  wholeLines bytes →
  Bufio.rawLines EmptyString (bytes +:+ line)
  = Bufio.rawLines EmptyString bytes ++ Bufio.rawLines EmptyString line.
Proof.
  intros [->|[a ->]]; [done|].
  rewrite append_assoc. simpl.
  by rewrite rawLines_append_line.
Qed.

Lemma wholeLines_Fprintln bytes identifier :
  wholeLines (bytes +:+ Fprintln_bytes identifier).
Proof.
  right. exists (bytes +:+ identifier). unfold Fprintln_bytes.
  by rewrite append_assoc.
Qed.

(** The set a load with no failure gets from [bytes]. *)
Lemma initArchive_ok bytes log :
  Forall Bufio.fits (Bufio.rawLines EmptyString bytes) →
  initArchive true Bufio.ReadAll (Disk (Some bytes) log)
  = (fold_left initArchive_line (Bufio.lines bytes) ∅,
     Disk (Some bytes) (log ++ [FsOpenRead true; FsScan]), None).
Proof.
  intros Hfits. unfold initArchive. simpl.
  by rewrite (tokens_fits _ None Hfits).
Qed.

(** X2: round trip of [appendToArchive] and [initArchive].  When the
    store holds whole lines that fit the scanner and the identifier is
    storable (non-empty, no white space at its ends, no newline, short
    enough), a load of the store after a successful append returns no
    error and gives the identifier on top of what a load before the
    append gave; the store is the old bytes and the new line. *)
Theorem append_then_load
    (identifier : string) (m : gset string) (bytes : string)
    (log : list fsEvent) :
  wholeLines bytes →
  Forall Bufio.fits (Bufio.rawLines EmptyString bytes) →
  storable identifier →
  ∃ log',
    initArchive true Bufio.ReadAll
      (appendToArchive AppendOk identifier m (Disk (Some bytes) log)).1.2
    = ({[ identifier ]}
         ∪ (initArchive true Bufio.ReadAll (Disk (Some bytes) log)).1.1,
       Disk (Some (bytes +:+ Fprintln_bytes identifier)) log',
       None).
Proof.
  intros Hwhole Hfits Hid.
  destruct (storable_line _ Hid) as [Hline Hcr].
  pose proof Hid as (Hne & Htrim & Hnl & Hfit).
  simpl. eexists.
  rewrite initArchive_ok, (initArchive_ok bytes log Hfits); simpl.
  - f_equal. f_equal. unfold Bufio.lines.
    rewrite wholeLines_append, Hline, fmap_app by done. simpl.
    rewrite fold_left_app. simpl. rewrite Hcr.
    unfold initArchive_line at 1. rewrite Htrim.
    destruct (decide (identifier = EmptyString)); [done|]. done.
  - rewrite wholeLines_append, Hline by done.
    apply Forall_app_2; [done|]. by repeat constructor.
Qed.

(** ** Properties kept along a run *)

(** A property that every step keeps, where the invariants hold and
    the events are among [Q], holds at the end of a trace. *)
Lemma exec_induction (P : state → Prop) (Q : event → Prop)
    (args : list string) (m0 : gset string) :
  (N.of_nat (length args) < 2 ^ 64)%N → NoDup args →
  (∀ s e s', run_inv args s → dedup_inv m0 s → P s → Q e →
     step e s = Some s' → P s') →
  ∀ tr s s', run_inv args s → dedup_inv m0 s → P s → Forall Q tr →
    exec tr s = Some s' → P s'.
Proof.
  intros Hb Hnd Hstep. induction tr as [|e tr IH];
    intros s s' Hinv Hd HP HQ Hexec; simpl in Hexec.
  - by inversion Hexec; subst.
  - destruct (step e s) as [s1|] eqn:He; [|done].
    apply Forall_cons in HQ as [Hq HQ].
    eapply (IH s1); [| | |done..].
    + by eapply step_run_inv.
    + by eapply step_dedup_inv.
    + by eapply Hstep.
Qed.

(** The ledger and the disk change in one place only. *)
Lemma step_ledger e s s' :
  step e s = Some s' →
  (processedArchive s' = processedArchive s ∧ archive s' = archive s)
  ∨ ∃ i x g,
      e = EvJob i x ∧ goroutines s !! i = Some g ∧ g_pc g = PcAppend
      ∧ (appendToArchive (appendFate x) (ident g) (processedArchive s)
           (archive s)).1
        = (processedArchive s', archive s').
Proof.
  unfold step. destruct (mainAt s); [|done].
  destruct e as [i x| | | |sig]; intros Hstep.
  - destruct (goroutines s !! i) as [[p r]|] eqn:Hi; [|done].
    unfold processVideo_step in Hstep. simpl in Hstep.
    destruct p; simpl in Hstep;
      repeat match type of Hstep with
        | context [markPending ?a ?b] => unfold markPending in Hstep
        | context [decide ?P] => destruct (decide P)
        | context [ctxCancelled s] => destruct (ctxCancelled s)
        | context [cmdErr x] => destruct (cmdErr x)
        | context [resultsClosed s] => destruct (resultsClosed s)
        | context [length (results s) <? totalItems s] =>
            destruct (length (results s) <? totalItems s)
        | context [wg s] => destruct (wg s)
        end; try done;
      try (inversion Hstep; subst s'; by left).
    destruct (appendToArchive _ _ _ _) as [[m d] err] eqn:Happ.
    inversion Hstep; subst s'. right. exists i, x, (Goroutine PcAppend r).
    split_and!; [done..|]. unfold ident. simpl. by rewrite Happ.
  - destruct (resultsClosed s); [done|]. destruct (wg s); [|done].
    inversion Hstep; subst s'. by left.
  - destruct (results s); [done|]. inversion Hstep; subst s'. by left.
  - destruct (results s); [|done]. destruct (resultsClosed s); [|done].
    inversion Hstep; subst s'. by left.
  - inversion Hstep; subst s'. by left.
Qed.

(** What a load that returns no error has done. *)
Lemma initArchive_success open_ok rd d m d' :
  initArchive open_ok rd d = (m, d', None) →
  let bytes := createIfAbsent (store d) in
  open_ok = true ∧ rd = Bufio.ReadAll
  ∧ d' = Disk (Some bytes) (fslog d ++ [FsOpenRead true; FsScan])
  ∧ Forall Bufio.fits (Bufio.rawLines EmptyString bytes)
  ∧ m = fold_left initArchive_line (Bufio.lines bytes) ∅.
Proof.
  unfold initArchive. destruct open_ok; simpl; [|done].
  destruct (Bufio.scan rd (createIfAbsent (store d))) as [ls [e|]] eqn:Hscan;
    [done|].
  intros [= <- <-]. destruct rd as [|n]; simpl in Hscan.
  - apply tokens_no_error in Hscan as (_ & -> & Hfits). done.
  - pose proof (tokens_read_error
      (Bufio.rawLines EmptyString
         (Bufio.takeBytes n (createIfAbsent (store d)))) Bufio.ErrRead) as Hne.
    by rewrite Hscan in Hne.
Qed.

Lemma ident_in_args args s i g :
  run_inv args s → goroutines s !! i = Some g → ident g ∈ args.
Proof.
  intros Hinv Hi. rewrite <- (inv_ids _ _ Hinv).
  apply list_elem_of_fmap. exists g. split; [done|].
  by eapply list_elem_of_lookup_2.
Qed.

Lemma step_coherent args m0 s e s' :
  Forall storable args →
  run_inv args s → dedup_inv m0 s → coherent s →
  match e with
  | EvJob _ x => ∀ n, appendFate x ≠ AppendWriteFails n
  | _ => True
  end →
  step e s = Some s' → coherent s'.
Proof.
  intros Hargs Hinv Hd (bytes & Hst & Hwhole & Hfits & Hload) Hq Hstep.
  destruct (step_ledger _ _ _ Hstep) as [[Hm Ha]|(i & x & g & -> & Hi & Hpc & Happ)].
  - exists bytes. rewrite Ha, Hm.
    exact (conj Hst (conj Hwhole (conj Hfits Hload))).
  - assert (storable (ident g)) as Hid.
    { eapply Forall_forall; [exact Hargs|]. by eapply ident_in_args. }
    destruct (appendFate x) as [|n|] eqn:Hx; simpl in Happ.
    + inversion Happ as [[Hm Ha]]. exists bytes. rewrite <- Ha, <- Hm. simpl.
      exact (conj Hst (conj Hwhole (conj Hfits Hload))).
    + by destruct (Hq n).
    + inversion Happ as [[Hm Ha]]. unfold coherent. rewrite <- Ha, <- Hm. simpl.
      rewrite Hst. simpl.
      destruct (storable_line _ Hid) as [Hline Hcr].
      destruct Hid as (Hne & Htrim & Hnl & Hfit).
      exists (bytes +:+ Fprintln_bytes (ident g)). split_and!; [done| | |].
      * apply wholeLines_Fprintln.
      * rewrite wholeLines_append, Hline by done.
        apply Forall_app_2; [done|]. by repeat constructor.
      * unfold Bufio.lines.
        rewrite wholeLines_append, Hline, fmap_app by done. simpl.
        rewrite fold_left_app. simpl. rewrite Hcr.
        unfold Bufio.lines in Hload. rewrite Hload.
        unfold initArchive_line. rewrite Htrim.
        by destruct (decide (ident g = EmptyString)).
Qed.

(** X3: the store stays the image of the ledger during a run.  When
    the store loaded holds whole lines, every argument is storable and
    no write of the run fails, then at any time of the run a load of
    the store as it is would succeed and give exactly the in-memory
    ledger. *)
Theorem store_reads_back_as_ledger
    (exe_ok open_ok : bool) (rd : Bufio.readOutcome) (d : disk)
    (osArgs : list string) (s0 : state) (tr : list event) (s : state) :
  (N.of_nat (length osArgs) < 2 ^ 64)%N →
  main exe_ok open_ok rd d osArgs = Launched s0 →
  wholeLines (createIfAbsent (store d)) →
  Forall storable osArgs →
  writesGoThrough tr →
  exec tr s0 = Some s →
  ∃ log',
    initArchive true Bufio.ReadAll (archive s)
    = (processedArchive s, Disk (store (archive s)) log', None).
Proof.
  intros Hb Hmain Hwhole Hargs Htr Hexec.
  apply main_launched in Hmain as (m & d' & Hinit & -> & _).
  apply initArchive_success in Hinit as (_ & _ & -> & Hfits & ->).
  assert (coherent s) as (bytes & Hst & Hw & Hf & Hload).
  { eapply (exec_induction coherent
              (λ e, match e with
                    | EvJob _ x => ∀ n, appendFate x ≠ AppendWriteFails n
                    | _ => True
                    end) (deduplicateArgs osArgs));
      [by apply deduplicateArgs_bound|apply deduplicateArgs_NoDup| |
       apply launch_run_inv|apply launch_dedup_inv| |exact Htr|exact Hexec].
    - intros s1 e s2 Hinv Hd Hc Hq Hstep.
      eapply (step_coherent (deduplicateArgs osArgs) _ s1 e s2);
        [|exact Hinv|exact Hd|exact Hc|exact Hq|exact Hstep].
      apply Forall_forall. intros x Hx.
      rewrite Forall_forall in Hargs. apply Hargs.
      by apply (deduplicateArgs_elem osArgs x).
    - exists (createIfAbsent (store d)).
      exact (conj eq_refl (conj Hwhole (conj Hfits eq_refl))). }
  destruct (archive s) as [st lg]. simpl in Hst. subst st.
  eexists. rewrite initArchive_ok by done. by rewrite Hload.
Qed.

(** X4: a run only ever appends to the store.  At any time the bytes
    loaded are still the beginning of the file, and after the load the
    run has only opened the file for appending and written to it. *)
Theorem store_is_append_only
    (exe_ok open_ok : bool) (rd : Bufio.readOutcome) (d : disk)
    (osArgs : list string) (s0 : state) (tr : list event) (s : state) :
  (N.of_nat (length osArgs) < 2 ^ 64)%N →
  main exe_ok open_ok rd d osArgs = Launched s0 →
  exec tr s0 = Some s →
  ∃ suffix log',
    store (archive s) = Some (createIfAbsent (store d) +:+ suffix)
    ∧ fslog (archive s) = fslog (archive s0) ++ log'
    ∧ Forall isAppendEvent log'.
Proof.
  intros Hb Hmain Hexec.
  apply main_launched in Hmain as (m & d' & Hinit & -> & _).
  apply initArchive_success in Hinit as (_ & _ & -> & _ & ->).
  set (bytes := createIfAbsent (store d)) in *.
  set (log0 := fslog d ++ [FsOpenRead true; FsScan]) in *.
  eapply (exec_induction
            (λ s, ∃ suffix log',
               store (archive s) = Some (bytes +:+ suffix)
               ∧ fslog (archive s) = log0 ++ log'
               ∧ Forall isAppendEvent log')
            (λ _, True) (deduplicateArgs osArgs));
    [by apply deduplicateArgs_bound|apply deduplicateArgs_NoDup| |
     apply launch_run_inv|apply launch_dedup_inv| | |exact Hexec].
  - intros s1 e s2 _ _ (suffix & log' & Hst & Hlog & Hall) _ Hstep.
    destruct (step_ledger _ _ _ Hstep)
      as [[_ Ha]|(i & x & g & _ & _ & _ & Happ)].
    + exists suffix, log'. by rewrite Ha.
    + destruct (appendFate x) as [|n|]; simpl in Happ;
        inversion Happ as [[Hm Ha]]; simpl; rewrite Hst, Hlog; simpl.
      * exists suffix, (log' ++ [FsOpenAppend false]).
        split_and!; [done|by rewrite app_assoc|].
        apply Forall_app_2; [done|]. by repeat constructor.
      * eexists (suffix +:+ _), (log' ++ [FsOpenAppend true; FsWrite _]).
        split_and!; [by rewrite append_assoc|by rewrite app_assoc|].
        apply Forall_app_2; [done|]. by repeat constructor.
      * eexists (suffix +:+ _), (log' ++ [FsOpenAppend true; FsWrite _]).
        split_and!; [by rewrite append_assoc|by rewrite app_assoc|].
        apply Forall_app_2; [done|]. by repeat constructor.
  - exists EmptyString, []. simpl. rewrite append_nil_r, app_nil_r. done.
  - by apply Forall_true.
Qed.

(** X5: the ledger of a run is what was loaded and the identifiers of
    the jobs whose append went through.  The ledger only grows; every
    member was loaded or is an argument; and for every job, at any
    time, its identifier is in the in-memory ledger exactly when the
    ledger as loaded held it or the job is past its append with the
    outcome Succeeded.  A job that failed, or whose append failed,
    leaves its identifier out. *)
Theorem ledger_grows_by_successes
    (exe_ok open_ok : bool) (rd : Bufio.readOutcome) (d : disk)
    (osArgs : list string) (s0 : state) (tr : list event) (s : state) :
  (N.of_nat (length osArgs) < 2 ^ 64)%N →
  main exe_ok open_ok rd d osArgs = Launched s0 →
  exec tr s0 = Some s →
  processedArchive s0 ⊆ processedArchive s
  ∧ (∀ x, x ∈ processedArchive s → x ∈ processedArchive s0 ∨ x ∈ osArgs)
  ∧ (∀ i g, goroutines s !! i = Some g →
       (ident g ∈ processedArchive s
        ↔ ident g ∈ processedArchive s0
          ∨ (unsent g = false ∨ g_pc g = PcUnmark ∨ g_pc g = PcSend)
            ∧ outcome_of (g_result g) = Succeeded)).
Proof.
  intros Hb Hmain Hexec.
  destruct (main_invariants _ _ _ _ _ _ _ _ Hb Hmain Hexec) as [Hinv Hd].
  pose proof (dinv_ledger _ _ Hd) as Hled.
  assert (∀ g, archived g = true
               ↔ (unsent g = false ∨ g_pc g = PcUnmark ∨ g_pc g = PcSend)
                 ∧ outcome_of (g_result g) = Succeeded) as Harch.
  { intros g. unfold archived, unsent.
    destruct (g_pc g), (outcome_of (g_result g)); naive_solver. }
  split_and!.
  - intros x Hx. apply (proj2 (Hled x)). by left.
  - intros x Hx. apply (proj1 (Hled x)) in Hx as [?|Hx]; [by left|right].
    apply identsOf_subseteq in Hx. rewrite (inv_ids _ _ Hinv) in Hx.
    by apply (deduplicateArgs_elem osArgs x).
  - intros i g Hi. rewrite Hled, <- Harch, identsOf_elem. split.
    + intros [?|(j & g' & Hj & Ha & Heq)]; [by left|right].
      assert (j = i) as ->.
      { eapply (NoDup_lookup (deduplicateArgs osArgs) j i (ident g)).
        - apply deduplicateArgs_NoDup.
        - rewrite <- (inv_ids _ _ Hinv), list_lookup_fmap, Hj. simpl.
          by rewrite Heq.
        - by rewrite <- (inv_ids _ _ Hinv), list_lookup_fmap, Hi. }
      congruence.
    + intros [?|Ha]; [by left|right]. by exists i, g.
Qed.

(** ** Verdicts and counters *)

Lemma verdictsOf_app f (l1 l2 : list goroutine) :
  verdictsOf f (l1 ++ l2) = verdictsOf f l1 ++ verdictsOf f l2.
Proof.
  induction l1 as [|g l1 IH]; simpl; [done|]. rewrite IH. by destruct (f g).
Qed.

Lemma verdictsOf_all f (l : list goroutine) :
  Forall (λ g, f g = true) l →
  verdictsOf f l = verdictOf ∘ g_result <$> l.
Proof. induction 1 as [|g l Hg _ IH]; simpl; [done|]. by rewrite Hg, IH. Qed.

Lemma handleProcessingResult_verdict result c :
  logVerdict (handleProcessingResult result c).1 = verdictOf result.
Proof.
  unfold handleProcessingResult, verdictOf.
  destruct (ArchiveErr result); [|destruct (Error result) as [e|];
    [destruct (GoStrings.Contains e "skipped")|]]; done.
Qed.

Lemma withVerdict_snoc v vs w :
  withVerdict v (vs ++ [w]) = withVerdict v vs + (if decide (w = v) then 1 else 0).
Proof.
  unfold withVerdict. rewrite filter_app, length_app. f_equal.
  rewrite filter_cons, filter_nil. by destruct (decide (w = v)).
Qed.

Lemma withVerdict_total vs :
  withVerdict Success vs + withVerdict Skipped vs
  + withVerdict ArchiveError vs + withVerdict FailedWith vs = length vs.
Proof.
  unfold withVerdict. induction vs as [|w vs IH]; [done|].
  rewrite !filter_cons. destruct w; simpl;
    repeat (case_decide; try done); simpl; lia.
Qed.

Lemma withVerdict_Permutation v vs ws :
  vs ≡ₚ ws → withVerdict v vs = withVerdict v ws.
Proof. intros H. unfold withVerdict. by rewrite H. Qed.

(** The counters after one result, by its verdict. *)
Lemma handleProcessingResult_counts result c logged :
  (N.of_nat (length logged) + 1 < 2 ^ 64)%N →
  countsLogged c logged →
  countsLogged (handleProcessingResult result c).2
    (logged ++ [(handleProcessingResult result c).1]).
Proof.
  intros Hb (Hp & Hs & He). unfold countsLogged.
  rewrite fmap_app. simpl. rewrite handleProcessingResult_verdict.
  rewrite !withVerdict_snoc.
  pose proof (withVerdict_total (logVerdict <$> logged)) as Htot.
  rewrite length_fmap in Htot.
  unfold handleProcessingResult, verdictOf.
  destruct (ArchiveErr result); [|destruct (Error result) as [e|];
    [destruct (GoStrings.Contains e "skipped")|]]; simpl;
    rewrite Uint64_Add_small by lia;
    repeat (case_decide; try done); lia.
Qed.

Lemma step_tallied args s e s' :
  (N.of_nat (length args) < 2 ^ 64)%N →
  run_inv args s → tallied s → step e s = Some s' → tallied s'.
Proof.
  intros Hb Hinv [Hperm Hcnt] Hstep. unfold step in Hstep.
  destruct (mainAt s) eqn:Hmain; [|done].
  destruct e as [i x| | | |sig].
  - destruct (goroutines s !! i) as [[p r]|] eqn:Hi; [|done].
    destruct (goroutines_split _ _ _ Hi) as (l1 & l2 & Hl & Hins).
    rewrite Hl, verdictsOf_app in Hperm. simpl in Hperm.
    unfold processVideo_step in Hstep. simpl in Hstep.
    destruct p; simpl in Hstep;
      repeat match type of Hstep with
        | context [markPending ?a ?b] => unfold markPending in Hstep
        | context [decide ?P] => destruct (decide P)
        | context [ctxCancelled s] => destruct (ctxCancelled s)
        | context [cmdErr x] => destruct (cmdErr x)
        | context [appendToArchive ?a ?b ?c ?d] =>
            destruct (appendToArchive a b c d) as [[? ?] ?]
        | context [resultsClosed s] => destruct (resultsClosed s) eqn:?
        | context [length (results s) <? totalItems s] =>
            destruct (length (results s) <? totalItems s)
        | context [wg s] => destruct (wg s)
        end; try done;
      inversion Hstep; subst s'; split; simpl; try done;
      rewrite Hins, verdictsOf_app; simpl; try done.
    rewrite fmap_app, app_assoc, Hperm. simpl.
    rewrite <- app_assoc. f_equiv. symmetry.
    by rewrite <- Permutation_cons_append.
  - destruct (resultsClosed s); [done|]. destruct (wg s); [|done].
    by inversion Hstep; subst s'.
  - destruct (results s) as [|r rest] eqn:Hr; [done|].
    inversion Hstep; subst s'. simpl.
    assert (length (logged s) < length args) as Hlt.
    { pose proof (inv_once _ _ Hinv) as Honce.
      apply Permutation_length in Honce.
      rewrite Hr, !length_app, !length_fmap, length_seq in Honce.
      simpl in Honce. lia. }
    split; simpl.
    + rewrite fmap_app, <- app_assoc. simpl.
      by rewrite handleProcessingResult_verdict.
    + apply handleProcessingResult_counts; [lia|done].
  - destruct (results s); [|done]. destruct (resultsClosed s); [|done].
    by inversion Hstep; subst s'.
  - by inversion Hstep; subst s'.
Qed.

Lemma Contains_yt_dlp_error msg :
  GoStrings.Contains ("yt-dlp error: " +:+ msg) "skipped"
  = GoStrings.Contains msg "skipped".
Proof. done. Qed.

(** X6: how [handleProcessingResult] reads the errors [processVideo]
    sets, by the substring test on the message.  The rejection by
    [markPending] ("duplicate in progress") is logged as Failed, the
    archived identifier ("skipped (archived)") as Skipped, and a
    failure of yt-dlp as Skipped exactly when the message of [cmd.Run]
    contains "skipped", as Failed otherwise. *)
Theorem verdict_by_error (r : processingResult) (c : counters) (msg : string) :
  ArchiveErr r = None →
  logVerdict (handleProcessingResult (with_error "duplicate in progress" r) c).1
  = FailedWith
  ∧ logVerdict (handleProcessingResult (with_error "skipped (archived)" r) c).1
    = Skipped
  ∧ logVerdict
      (handleProcessingResult (with_error ("yt-dlp error: " +:+ msg) r) c).1
    = (if GoStrings.Contains msg "skipped" then Skipped else FailedWith).
Proof.
  intros Ha. rewrite !handleProcessingResult_verdict. unfold verdictOf. simpl.
  rewrite Ha. by split_and!.
Qed.

Lemma launch_tallied m d args : tallied (launch m d args).
Proof.
  split; [|done].
  pose proof (launch_pcs m d args) as Hpcs.
  change (logged (launch m d args)) with (@nil logLine).
  change (results (launch m d args)) with (@nil processingResult).
  induction Hpcs as [|g l [Hg _] _ IH]; simpl; [done|].
  unfold sent, unsent. by rewrite Hg.
Qed.

Lemma exec_tallied args m0 tr s s' :
  (N.of_nat (length args) < 2 ^ 64)%N → NoDup args →
  run_inv args s → dedup_inv m0 s → tallied s →
  exec tr s = Some s' → tallied s'.
Proof.
  intros Hb Hnd Hinv Hd Ht Hexec.
  eapply (exec_induction tallied (λ _, True) args m0);
    [done|done| |exact Hinv|exact Hd|exact Ht| |exact Hexec].
  - intros s1 e s2 Hinv1 _ Ht1 _ Hstep. by eapply step_tallied.
  - by apply Forall_true.
Qed.

(** When [main] has returned every goroutine has. *)
Lemma exited_all args s code :
  run_inv args s → mainAt s = MainExited code →
  Forall (λ g, g_pc g = PcExit) (goroutines s).
Proof.
  intros Hinv Hexit.
  destruct (inv_exited _ _ Hinv code Hexit) as (_ & Hc & _).
  pose proof (inv_wg _ _ Hinv) as Hwg.
  rewrite (inv_closed _ _ Hinv Hc) in Hwg. symmetry in Hwg.
  apply tally_none in Hwg. eapply Forall_impl; [exact Hwg|].
  intros g. unfold alive. by destruct (g_pc g).
Qed.

Lemma exit_verdicts args s code :
  run_inv args s → tallied s → mainAt s = MainExited code →
  logVerdict <$> logged s ≡ₚ verdictOf ∘ g_result <$> goroutines s.
Proof.
  intros Hinv [Hperm _] Hexit.
  destruct (inv_exited _ _ Hinv code Hexit) as (_ & _ & Hr & _).
  rewrite Hr in Hperm. simpl in Hperm. rewrite app_nil_r in Hperm.
  rewrite Hperm, verdictsOf_all; [done|].
  eapply Forall_impl; [by eapply exited_all|].
  intros g Hg. unfold sent, unsent. by rewrite Hg.
Qed.

(** X7: once [main] has returned, every goroutine has, and the three
    counters of the summary are the numbers of goroutines by the
    verdict of their final result: processed counts the Success
    verdicts, skipped the Skipped ones, errors the archive errors and
    the failures together. *)
Theorem counters_by_verdict
    (exe_ok open_ok : bool) (rd : Bufio.readOutcome) (d : disk)
    (osArgs : list string) (s0 : state) (tr : list event) (s : state)
    (code : Z) :
  (N.of_nat (length osArgs) < 2 ^ 64)%N →
  main exe_ok open_ok rd d osArgs = Launched s0 →
  exec tr s0 = Some s → mainAt s = MainExited code →
  let vs := verdictOf ∘ g_result <$> goroutines s in
  processedCount (count s) = N.of_nat (withVerdict Success vs)
  ∧ skippedCount (count s) = N.of_nat (withVerdict Skipped vs)
  ∧ errorCount (count s)
    = N.of_nat (withVerdict ArchiveError vs + withVerdict FailedWith vs)
  ∧ Forall (λ g, g_pc g = PcExit) (goroutines s).
Proof.
  intros Hb Hmain Hexec Hexit vs.
  destruct (main_invariants _ _ _ _ _ _ _ _ Hb Hmain Hexec) as [Hinv Hd].
  apply main_launched in Hmain as (m & d' & _ & -> & _).
  assert (tallied s) as Ht.
  { eapply (exec_tallied (deduplicateArgs osArgs) m tr _ s);
      [by apply deduplicateArgs_bound|apply deduplicateArgs_NoDup|
       apply launch_run_inv|apply launch_dedup_inv|apply launch_tallied|done]. }
  pose proof (exit_verdicts _ _ _ Hinv Ht Hexit) as Hv.
  destruct Ht as [_ (Hp & Hs & He)].
  rewrite (withVerdict_Permutation _ _ _ Hv) in Hp.
  rewrite (withVerdict_Permutation _ _ _ Hv) in Hs.
  rewrite !(withVerdict_Permutation _ _ _ Hv) in He.
  split_and!; [done..|]. by eapply exited_all.
Qed.

(** ** A run on identifiers that are all archived *)

Lemma archived_goroutine m0 m g :
  goroutine_ok m0 m g → ident g ∈ m0 →
  started g = false ∧ archived g = false
  ∧ (unsent g = false → verdictOf (g_result g) = Skipped).
Proof.
  intros (Hpc & Hnd & Hdone & Hst) Hin.
  assert (started g = false) as Hs.
  { destruct (started g) eqn:E; [|done]. by destruct (Hst eq_refl). }
  split; [done|]. unfold started, archived, unsent, verdictOf, outcome_of in *.
  destruct (g_pc g); try done;
    destruct (ArchiveErr (g_result g)); try done;
    destruct (Error (g_result g)) as [e|]; try done;
    repeat case_decide; subst; try done.
Qed.

Lemma identsOf_false f l :
  Forall (λ g, f g = false) l → identsOf f l = [].
Proof. induction 1 as [|g l Hg _ IH]; simpl; [done|]. by rewrite Hg. Qed.

Lemma withVerdict_replicate v w n :
  withVerdict v (replicate n w) = if decide (w = v) then n else 0.
Proof.
  unfold withVerdict. induction n as [|n IH]; simpl.
  - by destruct (decide (w = v)).
  - rewrite filter_cons. destruct (decide (w = v)); simpl; by rewrite IH.
Qed.

Lemma step_archive_kept m0 s e s' :
  dedup_inv m0 s →
  Forall (λ g, ident g ∈ m0) (goroutines s) →
  step e s = Some s' → archive s' = archive s.
Proof.
  intros Hd Hall Hstep.
  destruct (step_ledger _ _ _ Hstep) as [[_ Ha]|(i & x & g & -> & Hi & Hpc & _)];
    [done|].
  pose proof (dinv_goroutines _ _ Hd) as Hok.
  rewrite Forall_forall in Hok, Hall.
  assert (g ∈ goroutines s) as Hg by by eapply list_elem_of_lookup_2.
  destruct (archived_goroutine _ _ _ (Hok _ Hg) (Hall _ Hg)) as (Hs & _).
  unfold started in Hs. by rewrite Hpc in Hs.
Qed.

(** X8: a run whose arguments are all in the ledger as loaded.  At
    any time yt-dlp has been started for nothing and the ledger and the
    store, with its log of calls, are as the load left them; once
    [main] has returned, every job is counted as skipped: the counters
    are 0 processed, the number of distinct arguments skipped, 0
    errors. *)
Theorem rerun_only_skips
    (exe_ok open_ok : bool) (rd : Bufio.readOutcome) (d : disk)
    (osArgs : list string) (s0 : state) (tr : list event) (s : state) :
  (N.of_nat (length osArgs) < 2 ^ 64)%N →
  main exe_ok open_ok rd d osArgs = Launched s0 →
  Forall (λ x, x ∈ processedArchive s0) osArgs →
  exec tr s0 = Some s →
  spawned s = []
  ∧ processedArchive s = processedArchive s0
  ∧ archive s = archive s0
  ∧ (∀ code, mainAt s = MainExited code →
       count s = Counters 0 (N.of_nat (length (deduplicateArgs osArgs))) 0).
Proof.
  intros Hb Hmain Hargs Hexec.
  pose proof (λ tr s, main_invariants _ _ _ _ _ _ tr s Hb Hmain) as Hinvs.
  destruct (Hinvs _ _ Hexec) as [Hinv Hd].
  assert (∀ s1, run_inv (deduplicateArgs osArgs) s1 →
            Forall (λ g, ident g ∈ processedArchive s0) (goroutines s1))
    as Hall.
  { intros s1 Hinv1. apply Forall_forall. intros g Hg.
    rewrite Forall_forall in Hargs. apply Hargs.
    apply (deduplicateArgs_elem osArgs (ident g)).
    rewrite <- (inv_ids _ _ Hinv1). apply list_elem_of_fmap. by exists g. }
  assert (Forall (λ g, started g = false ∧ archived g = false
                       ∧ (unsent g = false → verdictOf (g_result g) = Skipped))
            (goroutines s)) as Hgs.
  { pose proof (dinv_goroutines _ _ Hd) as Hok. specialize (Hall s Hinv).
    rewrite Forall_forall in Hok, Hall. apply Forall_forall. intros g Hg.
    by eapply archived_goroutine; [apply Hok|apply Hall]. }
  assert (identsOf started (goroutines s) = []) as Hst.
  { apply identsOf_false. eapply Forall_impl; [exact Hgs|]. by intros g [? _]. }
  assert (identsOf archived (goroutines s) = []) as Har.
  { apply identsOf_false. eapply Forall_impl; [exact Hgs|].
    by intros g (_ & ? & _). }
  split_and!.
  - destruct (spawned s) as [|x l] eqn:Hsp; [done|].
    assert (x ∈ identsOf started (goroutines s)) as Hx.
    { apply (dinv_spawned _ _ Hd x). rewrite Hsp. by left. }
    rewrite Hst in Hx. inversion Hx.
  - apply set_eq. intros x. rewrite (dinv_ledger _ _ Hd x), Har. set_solver.
  - apply main_launched in Hmain as (m & d' & _ & Hs0 & _).
    eapply (exec_induction (λ s1, archive s1 = archive s0) (λ _, True)
              (deduplicateArgs osArgs) (processedArchive s0));
      [by apply deduplicateArgs_bound|apply deduplicateArgs_NoDup| | | |
       reflexivity|by apply Forall_true|exact Hexec].
    + intros s1 e s2 Hinv1 Hd1 Ha _ Hstep. rewrite <- Ha.
      eapply step_archive_kept; [exact Hd1|by apply Hall|exact Hstep].
    + rewrite Hs0. apply launch_run_inv.
    + rewrite Hs0. apply launch_dedup_inv.
  - intros code Hexit.
    assert (tallied s) as Ht.
    { apply main_launched in Hmain as (m & d' & _ & -> & _).
      eapply (exec_tallied (deduplicateArgs osArgs) m tr _ s);
        [by apply deduplicateArgs_bound|apply deduplicateArgs_NoDup|
         apply launch_run_inv|apply launch_dedup_inv|apply launch_tallied|done]. }
    pose proof (exit_verdicts _ _ _ Hinv Ht Hexit) as Hv.
    assert (verdictOf ∘ g_result <$> goroutines s
            = replicate (length (deduplicateArgs osArgs)) Skipped) as Hrep.
    { rewrite <- (inv_ids _ _ Hinv), length_fmap.
      pose proof (exited_all _ _ _ Hinv Hexit) as Hex.
      clear -Hgs Hex. induction Hgs as [|g l (_ & _ & Hg) _ IH]; [done|].
      apply Forall_cons in Hex as [Hpc Hex]. rewrite fmap_cons. simpl.
      f_equal; [|by apply IH]. apply Hg. unfold unsent. by rewrite Hpc. }
    destruct Ht as [_ (Hp & Hs & He)].
    rewrite (withVerdict_Permutation _ _ _ Hv), Hrep,
      withVerdict_replicate in Hp.
    rewrite (withVerdict_Permutation _ _ _ Hv), Hrep,
      withVerdict_replicate in Hs.
    rewrite !(withVerdict_Permutation _ _ _ Hv), !Hrep,
      !withVerdict_replicate in He. simpl in *.
    destruct (count s) as [p k e]. simpl in *. by subst.
Qed.

(** ** No goroutine blocks *)

(** X9: while [main] collects, every goroutine that has not returned
    can take its next step, whatever yt-dlp and the file system answer:
    the send finds room in the buffer and an open channel, [wg.Done] a
    positive counter.  The channel is closed only when every goroutine
    has returned, [main] leaves the loop only on a closed and drained
    channel, and the buffer never holds more results than its
    capacity [totalItems]. *)
Theorem no_goroutine_blocks
    (exe_ok open_ok : bool) (rd : Bufio.readOutcome) (d : disk)
    (osArgs : list string) (s0 : state) (tr : list event) (s : state) :
  (N.of_nat (length osArgs) < 2 ^ 64)%N →
  main exe_ok open_ok rd d osArgs = Launched s0 →
  exec tr s0 = Some s →
  (mainAt s = MainCollect →
     ∀ i g x, goroutines s !! i = Some g → g_pc g ≠ PcExit →
       ∃ s', step (EvJob i x) s = Some s')
  ∧ (resultsClosed s = true → Forall (λ g, g_pc g = PcExit) (goroutines s))
  ∧ (mainAt s ≠ MainCollect → resultsClosed s = true ∧ results s = [])
  ∧ length (results s) ≤ totalItems s.
Proof.
  intros Hb Hmain Hexec.
  destruct (main_invariants _ _ _ _ _ _ _ _ Hb Hmain Hexec) as [Hinv _].
  pose proof (inv_once _ _ Hinv) as Honce. apply Permutation_length in Honce.
  rewrite !length_app, !length_fmap, length_seq, itemsOf_length in Honce.
  assert (resultsClosed s = true → Forall (λ g, g_pc g = PcExit) (goroutines s))
    as Hclosed.
  { intros Hc. pose proof (inv_wg _ _ Hinv) as Hwg.
    rewrite (inv_closed _ _ Hinv Hc) in Hwg. symmetry in Hwg.
    apply tally_none in Hwg. eapply Forall_impl; [exact Hwg|].
    intros g. unfold alive. by destruct (g_pc g). }
  split_and!; [|done| |rewrite (inv_total _ _ Hinv); lia].
  - intros Hcol i [p r] x Hi Hpc. simpl in Hpc.
    assert (resultsClosed s = false) as Hopen.
    { destruct (resultsClosed s) eqn:Hc; [|done].
      specialize (Hclosed eq_refl). rewrite Forall_forall in Hclosed.
      by destruct Hpc; apply (Hclosed (Goroutine p r));
        eapply list_elem_of_lookup_2. }
    unfold step. rewrite Hcol, Hi. unfold processVideo_step. simpl.
    destruct p; simpl; try by eauto.
    + unfold markPending. destruct (decide _); eauto.
    + destruct (decide _); [|destruct (ctxCancelled s)]; eauto.
    + destruct (cmdErr x); eauto.
    + destruct (appendToArchive _ _ _ _) as [[? ?] ?]. eauto.
    + rewrite Hopen.
      pose proof (tally_lookup unsent _ _ _ Hi eq_refl).
      rewrite (inv_total _ _ Hinv).
      destruct (Nat.ltb_spec (length (results s)) (length (deduplicateArgs osArgs)));
        [eauto|lia].
    + pose proof (tally_lookup alive _ _ _ Hi eq_refl) as Hw.
      rewrite <- (inv_wg _ _ Hinv) in Hw. destruct (wg s); [lia|eauto].
  - intros Hne. destruct (mainAt s) as [|code] eqn:Hm; [done|].
    by destruct (inv_exited _ _ Hinv code Hm) as (_ & ? & ? & _).
Qed.

(** ** The pending tracker *)

(** X10: the pending tracker on one identifier.  [markPending]
    succeeds exactly when the identifier is absent and leaves it
    present; a second [markPending] fails and changes nothing; an
    [unmarkPending] after a successful [markPending] gives the set
    back; after [unmarkPending] the identifier is absent; neither
    changes the membership of another identifier. *)
Theorem markPending_unmarkPending (identifier : string) (pending : gset string) :
  ((markPending identifier pending).2 = true ↔ identifier ∉ pending)
  ∧ (identifier ∈ (markPending identifier pending).1)
  ∧ markPending identifier (markPending identifier pending).1
    = ((markPending identifier pending).1, false)
  ∧ (identifier ∉ pending →
     unmarkPending identifier (markPending identifier pending).1 = pending)
  ∧ (identifier ∉ unmarkPending identifier pending)
  ∧ (∀ other, other ≠ identifier →
       (other ∈ (markPending identifier pending).1 ↔ other ∈ pending)
       ∧ (other ∈ unmarkPending identifier pending ↔ other ∈ pending)).
Proof.
  unfold markPending, unmarkPending.
  destruct (decide (identifier ∈ pending)) as [Hin|Hout]; simpl.
  - split_and!; try done; [by destruct (decide _)|set_solver..].
  - split_and!; try done.
    + set_solver.
    + destruct (decide _) as [|Hn]; [done|]. destruct Hn. set_solver.
    + intros _. apply set_eq. intros x. set_solver.
    + set_solver.
    + set_solver.
Qed.

(** ** [deduplicateArgs] again *)

Lemma firstOccurrences_NoDup_id args : ∀ earlier,
  NoDup (earlier ++ args) → firstOccurrences earlier args = args.
Proof.
  induction args as [|a args IH]; intros earlier Hnd; simpl; [done|].
  assert (NoDup ((earlier ++ [a]) ++ args)) as Hnd'
    by by rewrite <- app_assoc.
  rewrite (IH _ Hnd').
  destruct (decide (a ∈ earlier)) as [Hin|]; [|done].
  apply NoDup_app in Hnd as (_ & Hd & _). destruct (Hd a Hin). by left.
Qed.

(** X11: [deduplicateArgs] as an operation: applying it twice is
    applying it once; a list without repetition is returned as it is;
    the result is never longer than the input, is empty only for the
    empty input, and starts with the first argument. *)
Theorem deduplicateArgs_idempotent (args : list string) :
  deduplicateArgs (deduplicateArgs args) = deduplicateArgs args
  ∧ (NoDup args → deduplicateArgs args = args)
  ∧ length (deduplicateArgs args) ≤ length args
  ∧ (deduplicateArgs args = [] ↔ args = [])
  ∧ head (deduplicateArgs args) = head args.
Proof.
  assert (∀ l, NoDup l → deduplicateArgs l = l) as Hid.
  { intros l Hl. rewrite deduplicateArgs_first.
    by apply firstOccurrences_NoDup_id. }
  split_and!.
  - apply Hid, deduplicateArgs_NoDup.
  - apply Hid.
  - apply sublist_length. rewrite deduplicateArgs_first.
    apply firstOccurrences_sublist.
  - apply deduplicateArgs_nil.
  - rewrite deduplicateArgs_first. destruct args as [|a args]; [done|].
    simpl. destruct (decide (a ∈ [])) as [Hin|]; [inversion Hin|done].
Qed.

(** ** [sanitizeFilename] *)

Section Sanitize.

Import Part000.
Implicit Types (s t p q : string) (c : ascii) (f : ascii → bool).

Lemma anyByte_append f s t : anyByte f (s +:+ t) = anyByte f s || anyByte f t.
Proof.
  induction s as [|c s IH]; simpl; [done|]. by rewrite IH, orb_assoc.
Qed.

Lemma anyByte_rev f s : anyByte f (String.rev s) = anyByte f s.
Proof.
  induction s as [|c s IH]; [done|].
  rewrite rev_cons, anyByte_append, IH. simpl.
  rewrite orb_false_r. apply orb_comm.
Qed.

Lemma headKept_prefix s t : headKept (s +:+ t) → headKept s.
Proof. by destruct s. Qed.

Lemma trimLeftASCII_suffix s : ∃ p, s = p +:+ trimLeftASCII s.
Proof.
  induction s as [|c s [p IH]]; simpl; [by exists EmptyString|].
  destruct (cutset c).
  - exists (String c p). simpl. by rewrite <- IH.
  - by exists EmptyString.
Qed.

Lemma trimLeftASCII_head s : headKept (trimLeftASCII s).
Proof.
  induction s as [|c s IH]; simpl; [done|].
  by destruct (cutset c) eqn:Hc.
Qed.

Lemma trimLeftASCII_fixed s : headKept s → trimLeftASCII s = s.
Proof. destruct s as [|c s]; simpl; [done|]. by intros ->. Qed.

Lemma trimLeftASCII_kept s :
  anyByte (λ c, negb (cutset c)) (trimLeftASCII s)
  = anyByte (λ c, negb (cutset c)) s.
Proof.
  induction s as [|c s IH]; simpl; [done|].
  destruct (cutset c) eqn:Hc; simpl; [done|]. by rewrite Hc.
Qed.

Lemma Trim_ends s : headKept (Trim s) ∧ headKept (String.rev (Trim s)).
Proof.
  unfold Trim, trimRightASCII.
  set (y := String.rev (trimLeftASCII (String.rev s))).
  split; [apply trimLeftASCII_head|].
  destruct (trimLeftASCII_suffix y) as [p Hp].
  apply (headKept_prefix _ (String.rev p)).
  rewrite <- rev_append, <- Hp. unfold y. rewrite rev_involutive.
  apply trimLeftASCII_head.
Qed.

Lemma Trim_fixed s : headKept s → headKept (String.rev s) → Trim s = s.
Proof.
  intros Hl Hr. unfold Trim, trimRightASCII.
  by rewrite (trimLeftASCII_fixed _ Hr), rev_involutive, trimLeftASCII_fixed.
Qed.

Lemma Trim_piece s : ∃ p q, s = p +:+ Trim s +:+ q.
Proof.
  unfold Trim, trimRightASCII.
  destruct (trimLeftASCII_suffix (String.rev s)) as [q Hq].
  set (y := String.rev (trimLeftASCII (String.rev s))) in *.
  destruct (trimLeftASCII_suffix y) as [p Hp].
  exists p, (String.rev q).
  rewrite <- append_assoc, <- Hp. unfold y.
  by rewrite <- rev_append, <- Hq, rev_involutive.
Qed.

Lemma Trim_kept s :
  anyByte (λ c, negb (cutset c)) (Trim s) = anyByte (λ c, negb (cutset c)) s.
Proof.
  unfold Trim, trimRightASCII.
  by rewrite trimLeftASCII_kept, anyByte_rev, trimLeftASCII_kept, anyByte_rev.
Qed.

Lemma replaceByte_allowed c : forbidden (replaceByte c) = false.
Proof. destruct c as [[] [] [] [] [] [] [] []]; reflexivity. Qed.

Lemma replaceByte_fixed c : forbidden c = false → replaceByte c = c.
Proof. destruct c as [[] [] [] [] [] [] [] []]; done. Qed.

Lemma replaceByte_cutset c : cutset (replaceByte c) = cutset c.
Proof. destruct c as [[] [] [] [] [] [] [] []]; reflexivity. Qed.

Lemma Replace_allowed s : anyByte forbidden (Replace s) = false.
Proof.
  induction s as [|c s IH]; simpl; [done|].
  by rewrite replaceByte_allowed, IH.
Qed.

Lemma Replace_fixed s : anyByte forbidden s = false → Replace s = s.
Proof.
  induction s as [|c s IH]; simpl; [done|].
  intros [Hc Hs]%orb_false_elim. by rewrite replaceByte_fixed, IH.
Qed.

Lemma Replace_length s : String.length (Replace s) = String.length s.
Proof. induction s as [|c s IH]; simpl; [done|]. by rewrite IH. Qed.

Lemma Replace_kept s :
  anyByte (λ c, negb (cutset c)) (Replace s)
  = anyByte (λ c, negb (cutset c)) s.
Proof.
  induction s as [|c s IH]; simpl; [done|].
  by rewrite replaceByte_cutset, IH.
Qed.

Lemma sanitizeFilename_allowed name :
  anyByte forbidden (sanitizeFilename name) = false.
Proof.
  unfold sanitizeFilename.
  destruct (Trim_piece (Replace name)) as (p & q & Hpq).
  pose proof (Replace_allowed name) as Hall.
  apply (f_equal (anyByte forbidden)) in Hpq.
  rewrite Hall, !anyByte_append in Hpq. symmetry in Hpq. clear Hall.
  rename Hpq into Hall.
  apply orb_false_elim in Hall as [_ Hall].
  by apply orb_false_elim in Hall as [Hall _].
Qed.

End Sanitize.

(** X12: what [sanitizeFilename] returns has none of the nine bytes
    the replacer rewrites, neither starts nor ends with a dot or a
    space, is not longer than the name, and is left unchanged by a
    second [sanitizeFilename]; it is empty exactly when the name
    consists of dots and spaces only. *)
Theorem sanitizeFilename_is_clean (name : string) :
  let out := Part000.sanitizeFilename name in
  Part000.anyByte Part000.forbidden out = false
  ∧ (∀ c rest, out = String c rest → Part000.cutset c = false)
  ∧ (∀ c rest, String.rev out = String c rest → Part000.cutset c = false)
  ∧ String.length out ≤ String.length name
  ∧ Part000.sanitizeFilename out = out
  ∧ (out = EmptyString
     ↔ Part000.anyByte (λ c, negb (Part000.cutset c)) name = false).
Proof.
  intros out. unfold out.
  destruct (Trim_ends (Part000.Replace name)) as [Hl Hr].
  fold (Part000.sanitizeFilename name) in Hl, Hr.
  split_and!.
  - apply sanitizeFilename_allowed.
  - intros c rest Heq. by rewrite Heq in Hl.
  - intros c rest Heq. by rewrite Heq in Hr.
  - unfold Part000.sanitizeFilename.
    destruct (Trim_piece (Part000.Replace name)) as (p & q & Hpq).
    apply (f_equal String.length) in Hpq.
    rewrite Replace_length, !length_append in Hpq. lia.
  - unfold Part000.sanitizeFilename at 1.
    rewrite (Replace_fixed _ (sanitizeFilename_allowed name)).
    by apply Trim_fixed.
  - rewrite <- Replace_kept, <- Trim_kept.
    fold (Part000.sanitizeFilename name). split; [by intros ->|].
    destruct (Part000.sanitizeFilename name) as [|c rest]; [done|].
    simpl in *. by rewrite Hl.
Qed.

(** ** [appendToArchive] of the variant with thumbnails *)

(** X13: [appendToArchive] of the variant with thumbnails.  When a call
    returns no error, the ledger is the old one and the identifier, and
    a second call for the identifier returns no error and leaves the
    ledger and the store untouched, whatever the file system would
    answer; a call on an identifier the ledger holds touches nothing,
    and one on a new identifier has written its line, and only it. *)
Theorem guarded_append_writes_once
    (io io' : appendIO) (identifier : string) (m m1 : gset string)
    (d d1 : disk) :
  Part000.appendToArchive io identifier m d = (m1, d1, None) →
  m1 = {[ identifier ]} ∪ m
  ∧ Part000.appendToArchive io' identifier m1 d1 = (m1, d1, None)
  ∧ (identifier ∈ m → m1 = m ∧ d1 = d)
  ∧ (identifier ∉ m →
     d1 = Disk (Some (createIfAbsent (store d) +:+ Fprintln_bytes identifier))
            (fslog d ++ [FsOpenAppend true; FsWrite (Fprintln_bytes identifier)])).
Proof.
  unfold Part000.appendToArchive at 1.
  destruct (decide (identifier ∈ m)) as [Hin|Hout].
  - intros [= <- <-]. split_and!; [set_solver| |done|done].
    unfold Part000.appendToArchive. by destruct (decide _).
  - destruct io; intros [= <- <-]. split_and!; [done| |done|done].
    unfold Part000.appendToArchive.
    destruct (decide _) as [|Hn]; [done|]. destruct Hn. set_solver.
Qed.

(** ** The variant with flags *)

Section V03.

Import Ytmp3V03.

Lemma Exists_members item (s : SafeSet) :
  Exists item s = bool_decide (item ∈ members s).
Proof.
  destruct s as [m|]; simpl; [done|].
  symmetry. apply bool_decide_eq_false. set_solver.
Qed.

Lemma deduplicateArgs_loop_spec' args : ∀ seen unique,
  (∀ x, x ∈ seen ↔ x ∈ unique) → NoDup unique →
  Forall (λ x, x ≠ EmptyString ∧ GoStrings.TrimSpace x = x) unique →
  let out := deduplicateArgs_loop seen unique args in
  NoDup out
  ∧ Forall (λ x, x ≠ EmptyString ∧ GoStrings.TrimSpace x = x) out
  ∧ (∀ x, x ∈ out
          ↔ x ∈ unique
            ∨ x ≠ EmptyString ∧ ∃ a, a ∈ args ∧ GoStrings.TrimSpace a = x).
Proof.
  induction args as [|a args IH]; intros seen unique Hseen Hnd Hall; simpl.
  - split_and!; [done..|]. intros x. split; [by left|].
    intros [?|(_ & a & Ha & _)]; [done|inversion Ha].
  - destruct (decide (GoStrings.TrimSpace a = EmptyString)) as [He|Hne].
    + destruct (IH seen unique Hseen Hnd Hall) as (H1 & H2 & H3).
      split_and!; [done..|]. intros x. rewrite H3. split.
      * intros [?|(Hx & b & Hb & Hbx)]; [by left|right].
        split; [done|]. exists b. split; [by right|done].
      * intros [?|(Hx & b & Hb & Hbx)]; [by left|].
        apply elem_of_cons in Hb as [->|Hb]; [congruence|].
        right. split; [done|]. by exists b.
    + destruct (decide (GoStrings.TrimSpace a ∈ seen)) as [Hin|Hout].
      * destruct (IH seen unique Hseen Hnd Hall) as (H1 & H2 & H3).
        split_and!; [done..|]. intros x. rewrite H3. split.
        -- intros [?|(Hx & b & Hb & Hbx)]; [by left|right].
           split; [done|]. exists b. split; [by right|done].
        -- intros [?|(Hx & b & Hb & Hbx)]; [by left|].
           apply elem_of_cons in Hb as [->|Hb].
           ++ left. rewrite <- Hbx. by apply Hseen.
           ++ right. split; [done|]. by exists b.
      * destruct (IH ({[GoStrings.TrimSpace a]} ∪ seen)
                    (unique ++ [GoStrings.TrimSpace a])) as (H1 & H2 & H3).
        -- intros x. rewrite elem_of_union, elem_of_singleton, elem_of_app,
             list_elem_of_singleton, Hseen. tauto.
        -- apply NoDup_app. split_and!; [done| |apply NoDup_singleton].
           intros x Hx ->%list_elem_of_singleton. by apply Hout, Hseen.
        -- apply Forall_app_2; [done|]. constructor; [|done].
           split; [done|]. apply TrimSpace_idempotent.
        -- split_and!; [done..|]. intros x. rewrite H3, elem_of_app,
             list_elem_of_singleton. split.
           ++ intros [[?| ->]|(Hx & b & Hb & Hbx)].
              ** by left.
              ** right. split; [done|]. exists a. split; [by left|done].
              ** right. split; [done|]. exists b. split; [by right|done].
           ++ intros [?|(Hx & b & Hb & Hbx)]; [by left; left|].
              apply elem_of_cons in Hb as [->|Hb]; [by left; right|].
              right. split; [done|]. by exists b.
Qed.

End V03.

(** X14: the operations of [SafeSet].  [Add] returns true exactly when
    [Exists] was false, and afterwards [Exists] is true; after [Remove],
    [Exists] is false; [Remove] after the [Add] of a new item gives the
    members back; neither changes [Exists] of another item.  All of it
    holds on a nil map as well. *)
Theorem SafeSet_operations (item : string) (s : Ytmp3V03.SafeSet) :
  (Ytmp3V03.Add item s).2 = negb (Ytmp3V03.Exists item s)
  ∧ Ytmp3V03.Exists item (Ytmp3V03.Add item s).1 = true
  ∧ Ytmp3V03.Exists item (Ytmp3V03.Remove item s) = false
  ∧ (Ytmp3V03.Exists item s = false →
     Ytmp3V03.members (Ytmp3V03.Remove item (Ytmp3V03.Add item s).1)
     = Ytmp3V03.members s)
  ∧ (∀ other, other ≠ item →
       Ytmp3V03.Exists other (Ytmp3V03.Add item s).1 = Ytmp3V03.Exists other s
       ∧ Ytmp3V03.Exists other (Ytmp3V03.Remove item s)
         = Ytmp3V03.Exists other s).
Proof.
  rewrite !Exists_members. unfold Ytmp3V03.Add.
  destruct (decide (item ∈ Ytmp3V03.members s)) as [Hin|Hout]; simpl.
  - rewrite (bool_decide_eq_true_2 _ Hin). split_and!; try done.
    + destruct s as [m|]; simpl in *; [|done].
      apply bool_decide_eq_false. set_solver.
    + intros other Hne. rewrite !Exists_members. split.
      * done.
      * destruct s as [m|]; simpl; [|done].
        apply bool_decide_ext. set_solver.
  - rewrite (bool_decide_eq_false_2 _ Hout). split_and!; try done.
    + apply bool_decide_eq_true. set_solver.
    + destruct s as [m|]; simpl in *; [|done].
      apply bool_decide_eq_false. set_solver.
    + intros _. apply set_eq. intros x.
      destruct (decide (x = item)) as [->|]; set_solver.
    + intros other Hne. rewrite !Exists_members. simpl. split.
      * apply bool_decide_ext. set_solver.
      * destruct s as [m|]; simpl; [|done].
        apply bool_decide_ext. set_solver.
Qed.

(** X15: [appendToArchive] of the variant with flags.  Without an
    error the members are the old ones and the identifier; with an
    error the members are the old ones and the identifier is not among
    them (the [Add] is taken back); an identifier that exists already
    leaves the store untouched and gives no error; for a new identifier
    there is no error exactly when the open and the write go
    through. *)
Theorem append_rolls_back
    (io : appendIO) (identifier : string) (s s' : Ytmp3V03.SafeSet)
    (d d' : disk) (err : option error) :
  Ytmp3V03.appendToArchive io identifier s d = (s', d', err) →
  (err = None →
     Ytmp3V03.members s' = {[ identifier ]} ∪ Ytmp3V03.members s)
  ∧ (err ≠ None →
     Ytmp3V03.members s' = Ytmp3V03.members s
     ∧ identifier ∉ Ytmp3V03.members s')
  ∧ (Ytmp3V03.Exists identifier s = true → d' = d ∧ err = None)
  ∧ (Ytmp3V03.Exists identifier s = false →
     err = None ↔ io = AppendOk).
Proof.
  rewrite Exists_members.
  unfold Ytmp3V03.appendToArchive, Ytmp3V03.Add.
  destruct (decide (identifier ∈ Ytmp3V03.members s)) as [Hin|Hout]; simpl.
  - intros [= <- <- <-]. rewrite (bool_decide_eq_true_2 _ Hin). simpl.
    split_and!; try done. intros _. set_solver.
  - rewrite (bool_decide_eq_false_2 _ Hout).
    destruct io; intros [= <- <- <-]; simpl;
      (split_and!; [try done|try done|done|try done]).
    + intros _. split; [|set_solver]. apply set_eq. intros x.
      destruct (decide (x = identifier)) as [->|]; set_solver.
    + intros _. split; [|set_solver]. apply set_eq. intros x.
      destruct (decide (x = identifier)) as [->|]; set_solver.
Qed.

(** X16: [deduplicateArgs] of the variant with flags.  Fewer than two
    arguments are returned as they are, neither trimmed nor checked for
    blanks.  From two arguments on, the result has no repetition, its
    entries are non-empty and their own [TrimSpace], and it holds
    exactly the non-empty [TrimSpace]s of the arguments. *)
Theorem deduplicateArgs_trims (args : list string) :
  let out := Ytmp3V03.deduplicateArgs args in
  (length args < 2 → out = args)
  ∧ (2 ≤ length args →
     NoDup out
     ∧ Forall (λ x, x ≠ EmptyString ∧ GoStrings.TrimSpace x = x) out
     ∧ (∀ x, x ∈ out
             ↔ x ≠ EmptyString ∧ ∃ a, a ∈ args ∧ GoStrings.TrimSpace a = x)).
Proof.
  intros out. unfold out, Ytmp3V03.deduplicateArgs.
  destruct (Nat.ltb_spec (length args) 2) as [Hlt|Hge].
  - split; [done|lia].
  - split; [lia|]. intros _.
    destruct (deduplicateArgs_loop_spec' args ∅ []) as (H1 & H2 & H3);
      [set_solver|constructor|constructor|].
    split_and!; [done..|]. intros x. rewrite H3. split.
    + intros [Hx|?]; [inversion Hx|done].
    + by right.
Qed.

(** X17: [initArchive] of the variant with flags, by way of
    [SafeSet.Load], against [initArchive] of [main.go] on the same store
    and reader: the members afterwards are what [main.go] loads on top
    of the members before (the set is not reset), the store is treated
    alike, an error is returned in the same cases, and a failed open
    leaves the set as it was. *)
Theorem load_on_top
    (open_ok : bool) (rd : Bufio.readOutcome) (d : disk)
    (s : Ytmp3V03.SafeSet) :
  let '(s', d', err) := Ytmp3V03.initArchive open_ok rd d s in
  let '(m, d0, err0) := initArchive open_ok rd d in
  Ytmp3V03.members s' = m ∪ Ytmp3V03.members s
  ∧ d' = d0
  ∧ (err = None ↔ err0 = None)
  ∧ (open_ok = false → s' = s).
Proof.
  unfold Ytmp3V03.initArchive, initArchive, Ytmp3V03.Load.
  destruct open_ok; simpl; [|split_and!; [set_solver|done..]].
  destruct (Bufio.scan rd (createIfAbsent (store d))) as [ls [e|]]; simpl;
    (split_and!; [apply initArchive_lines_union|done|done|done]).
Qed.

(** ** The properties on the sample runs *)

Lemma sample_run_done :
  exec (sample_schedule 7 sample_ok) (launch ∅ sample_loaded ["a"])
  = Some sample_done.
Proof. vm_compute. reflexivity. Qed.

Lemma sample_run_skipped :
  exec (sample_schedule 5 sample_ok) (launch {[ "a" ]} sample_archived_loaded ["a"])
  = Some sample_skipped.
Proof. vm_compute. reflexivity. Qed.

Lemma sample_run_sending :
  exec (replicate 5 (EvJob 0 sample_ok)) (launch ∅ sample_loaded ["a"])
  = Some sample_sending.
Proof. vm_compute. reflexivity. Qed.

Lemma sample_storable : storable "a".
Proof. split_and!; [done|vm_compute; reflexivity|reflexivity|vm_compute; reflexivity]. Qed.

Lemma sample_writes : writesGoThrough (sample_schedule 7 sample_ok).
Proof. unfold writesGoThrough. repeat (constructor; [try done|]). constructor. Qed.

Lemma append_then_load_witness :
  wholeLines (Fprintln_bytes "a")
  ∧ Forall Bufio.fits (Bufio.rawLines EmptyString (Fprintln_bytes "a"))
  ∧ storable "b"
  ∧ ∃ log',
      initArchive true Bufio.ReadAll
        (appendToArchive AppendOk "b" {[ "a" ]}
           (Disk (Some (Fprintln_bytes "a")) [])).1.2
      = ({[ "b" ]}
           ∪ (initArchive true Bufio.ReadAll
                (Disk (Some (Fprintln_bytes "a")) [])).1.1,
         Disk (Some (Fprintln_bytes "a" +:+ Fprintln_bytes "b")) log',
         None).
Proof.
  assert (wholeLines (Fprintln_bytes "a")) as H1 by (right; by exists "a").
  assert (Forall Bufio.fits (Bufio.rawLines EmptyString (Fprintln_bytes "a")))
    as H2 by (repeat constructor).
  assert (storable "b") as H3
    by (split_and!;
          [done|vm_compute; reflexivity|reflexivity|vm_compute; reflexivity]).
  split_and!; [exact H1|exact H2|exact H3|].
  exact (append_then_load "b" {[ "a" ]} (Fprintln_bytes "a") [] H1 H2 H3).
Defined.

Lemma store_reads_back_as_ledger_witness :
  let s0 := launch ∅ sample_loaded ["a"] in
  let tr := sample_schedule 7 sample_ok in
  (N.of_nat (length ["a"]) < 2 ^ 64)%N
  ∧ main true true Bufio.ReadAll sample_disk ["a"] = Launched s0
  ∧ wholeLines (createIfAbsent (store sample_disk))
  ∧ Forall storable ["a"]
  ∧ writesGoThrough tr
  ∧ exec tr s0 = Some sample_done
  ∧ ∃ log',
      initArchive true Bufio.ReadAll (archive sample_done)
      = (processedArchive sample_done,
         Disk (store (archive sample_done)) log', None).
Proof.
  assert (wholeLines (createIfAbsent (store sample_disk))) as H3 by by left.
  assert (Forall storable ["a"]) as H4
    by (constructor; [exact sample_storable|constructor]).
  split_and!; [reflexivity|reflexivity|exact H3|exact H4|exact sample_writes
              |exact sample_run_done|].
  exact (store_reads_back_as_ledger true true Bufio.ReadAll sample_disk ["a"]
           (launch ∅ sample_loaded ["a"]) (sample_schedule 7 sample_ok)
           sample_done eq_refl eq_refl H3 H4 sample_writes sample_run_done).
Defined.

Lemma store_is_append_only_witness :
  let s0 := launch ∅ sample_loaded ["a"] in
  let tr := sample_schedule 7 sample_ok in
  (N.of_nat (length ["a"]) < 2 ^ 64)%N
  ∧ main true true Bufio.ReadAll sample_disk ["a"] = Launched s0
  ∧ exec tr s0 = Some sample_done
  ∧ ∃ suffix log',
      store (archive sample_done)
      = Some (createIfAbsent (store sample_disk) +:+ suffix)
      ∧ fslog (archive sample_done) = fslog (archive s0) ++ log'
      ∧ Forall isAppendEvent log'.
Proof.
  split_and!; [reflexivity|reflexivity|exact sample_run_done|].
  exact (store_is_append_only true true Bufio.ReadAll sample_disk ["a"]
           (launch ∅ sample_loaded ["a"]) (sample_schedule 7 sample_ok)
           sample_done eq_refl eq_refl sample_run_done).
Defined.

Lemma ledger_grows_by_successes_witness :
  let s0 := launch ∅ sample_loaded ["a"] in
  let tr := sample_schedule 7 sample_ok in
  (N.of_nat (length ["a"]) < 2 ^ 64)%N
  ∧ main true true Bufio.ReadAll sample_disk ["a"] = Launched s0
  ∧ exec tr s0 = Some sample_done
  ∧ processedArchive s0 ⊆ processedArchive sample_done
  ∧ (∀ x, x ∈ processedArchive sample_done →
       x ∈ processedArchive s0 ∨ x ∈ ["a"]).
Proof.
  pose proof (ledger_grows_by_successes true true Bufio.ReadAll sample_disk
                ["a"] (launch ∅ sample_loaded ["a"])
                (sample_schedule 7 sample_ok) sample_done
                eq_refl eq_refl sample_run_done) as (H1 & H2 & _).
  split_and!; [reflexivity|reflexivity|exact sample_run_done|exact H1|exact H2].
Defined.

Lemma counters_by_verdict_witness :
  let s0 := launch ∅ sample_loaded ["a"] in
  let tr := sample_schedule 7 sample_ok in
  let vs := verdictOf ∘ g_result <$> goroutines sample_done in
  (N.of_nat (length ["a"]) < 2 ^ 64)%N
  ∧ main true true Bufio.ReadAll sample_disk ["a"] = Launched s0
  ∧ exec tr s0 = Some sample_done
  ∧ mainAt sample_done = MainExited 0
  ∧ processedCount (count sample_done) = N.of_nat (withVerdict Success vs)
  ∧ skippedCount (count sample_done) = N.of_nat (withVerdict Skipped vs).
Proof.
  pose proof (counters_by_verdict true true Bufio.ReadAll sample_disk
                ["a"] (launch ∅ sample_loaded ["a"])
                (sample_schedule 7 sample_ok) sample_done 0%Z
                eq_refl eq_refl sample_run_done eq_refl) as (H1 & H2 & _).
  split_and!; [reflexivity|reflexivity|exact sample_run_done|reflexivity
              |exact H1|exact H2].
Defined.

Lemma rerun_only_skips_witness :
  let s0 := launch {[ "a" ]} sample_archived_loaded ["a"] in
  let tr := sample_schedule 5 sample_ok in
  (N.of_nat (length ["a"; "a"]) < 2 ^ 64)%N
  ∧ main true true Bufio.ReadAll sample_archived ["a"; "a"] = Launched s0
  ∧ Forall (λ x, x ∈ processedArchive s0) ["a"; "a"]
  ∧ exec tr s0 = Some sample_skipped
  ∧ spawned sample_skipped = []
  ∧ processedArchive sample_skipped = processedArchive s0
  ∧ archive sample_skipped = archive s0.
Proof.
  assert (main true true Bufio.ReadAll sample_archived ["a"; "a"]
          = Launched (launch {[ "a" ]} sample_archived_loaded ["a"])) as H2
    by (vm_compute; reflexivity).
  assert (Forall (λ x, x ∈ processedArchive
                         (launch {[ "a" ]} sample_archived_loaded ["a"]))
            ["a"; "a"]) as H3
    by (repeat constructor; by apply elem_of_singleton).
  pose proof (rerun_only_skips true true Bufio.ReadAll sample_archived
                ["a"; "a"] (launch {[ "a" ]} sample_archived_loaded ["a"])
                (sample_schedule 5 sample_ok) sample_skipped
                eq_refl H2 H3 sample_run_skipped) as (H5 & H6 & H7 & _).
  split_and!; [reflexivity|exact H2|exact H3|exact sample_run_skipped
              |exact H5|exact H6|exact H7].
Defined.

Lemma no_goroutine_blocks_witness :
  let s0 := launch ∅ sample_loaded ["a"] in
  let tr := replicate 5 (EvJob 0 sample_ok) in
  (N.of_nat (length ["a"]) < 2 ^ 64)%N
  ∧ main true true Bufio.ReadAll sample_disk ["a"] = Launched s0
  ∧ exec tr s0 = Some sample_sending
  ∧ (mainAt sample_sending = MainCollect →
       ∀ i g x, goroutines sample_sending !! i = Some g → g_pc g ≠ PcExit →
         ∃ s', step (EvJob i x) sample_sending = Some s')
  ∧ length (results sample_sending) ≤ totalItems sample_sending.
Proof.
  pose proof (no_goroutine_blocks true true Bufio.ReadAll sample_disk
                ["a"] (launch ∅ sample_loaded ["a"])
                (replicate 5 (EvJob 0 sample_ok)) sample_sending
                eq_refl eq_refl sample_run_sending) as (H1 & _ & _ & H4).
  split_and!; [reflexivity|reflexivity|exact sample_run_sending|exact H1
              |exact H4].
Defined.

Lemma verdict_by_error_witness :
  let r := ProcessingResult "a" 1 None None in
  let c := Counters 0 0 0 in
  ArchiveErr r = None
  ∧ logVerdict (handleProcessingResult (with_error "duplicate in progress" r) c).1
    = FailedWith
  ∧ logVerdict
      (handleProcessingResult
         (with_error ("yt-dlp error: " +:+ "already skipped") r) c).1
    = (if GoStrings.Contains "already skipped" "skipped"
       then Skipped else FailedWith).
Proof.
  pose proof (verdict_by_error (ProcessingResult "a" 1 None None)
                (Counters 0 0 0) "already skipped" eq_refl) as (H1 & _ & H3).
  split_and!; [reflexivity|exact H1|exact H3].
Defined.

Lemma guarded_append_writes_once_witness :
  let d1 :=
    Disk (Some (Fprintln_bytes "a"))
      [FsOpenAppend true; FsWrite (Fprintln_bytes "a")] in
  Part000.appendToArchive AppendOk "a" ∅ sample_disk = ({[ "a" ]}, d1, None)
  ∧ Part000.appendToArchive (AppendWriteFails 1) "a" {[ "a" ]} d1
    = ({[ "a" ]}, d1, None).
Proof.
  assert (Part000.appendToArchive AppendOk "a" ∅ sample_disk
          = ({[ "a" ]},
             Disk (Some (Fprintln_bytes "a"))
               [FsOpenAppend true; FsWrite (Fprintln_bytes "a")], None)) as H0
    by (vm_compute; reflexivity).
  pose proof (guarded_append_writes_once AppendOk (AppendWriteFails 1) "a"
                ∅ {[ "a" ]} sample_disk _ H0) as (_ & H2 & _).
  split; [exact H0|exact H2].
Defined.

Lemma append_rolls_back_witness :
  let d' :=
    Disk (Some "a") [FsOpenAppend true; FsWrite "a"] in
  Ytmp3V03.appendToArchive (AppendWriteFails 1) "a" None sample_disk
  = (Some ∅, d', Some "archive file write failed")
  ∧ (Some "archive file write failed" ≠ None →
     Ytmp3V03.members (Some ∅) = Ytmp3V03.members None
     ∧ "a" ∉ Ytmp3V03.members (Some ∅)).
Proof.
  assert (Ytmp3V03.appendToArchive (AppendWriteFails 1) "a" None sample_disk
          = (Some ∅, Disk (Some "a") [FsOpenAppend true; FsWrite "a"],
             Some "archive file write failed")) as H0
    by (vm_compute; reflexivity).
  pose proof (append_rolls_back (AppendWriteFails 1) "a" None (Some ∅)
                sample_disk _ _ H0) as (_ & H2 & _).
  split; [exact H0|exact H2].
Defined.
